(** * Dodger: a shallow embedding of the simulation core of [1.py]

    The game is a single Python file.  Its simulation core (entities,
    difficulty curve, collision handling, scoring, best-score update) is
    translated here function by function.

    Numbers.  Pixel coordinates are Python [int]s and are modelled by [Z].
    Times, speeds and the score are Python [float]s; they are modelled by
    exact rationals [Q], so a decimal constant such as [0.9] stands for 9/10
    and no rounding takes place.  [int(x)] on a float truncates toward zero
    ([py_int]).  Equality of rationals is [Qeq] ([==]).

    Environment.  Everything a function reads from outside the program (the
    clock, the keyboard, the random generator, the outcome of a file write)
    is an explicit argument. *)

From Stdlib Require Import ZArith QArith Qabs Qround Bool List Lia Lqa.
Import ListNotations.

Local Open Scope Z_scope.

(** ** Configuration (lines 23-40) *)

Definition WIDTH : Z := 960.
Definition HEIGHT : Z := 540.
Definition FPS : Z := 60.
Definition PLAYER_SIZE : Z := 36.
Definition ENEMY_SIZE : Z := 28.
Definition POWERUP_SIZE : Z := 22.
Definition PLAYER_SPEED : Q := 330 # 1.
Definition DASH_SPEED : Q := 820 # 1.
Definition DASH_TIME : Q := 18 # 100.
Definition DASH_COOLDOWN : Q := 12 # 10.
Definition INVINCIBLE_AFTER_HIT : Q := 8 # 10.
Definition SPAWN_BASE_INTERVAL : Q := 9 # 10.
Definition SPAWN_MIN_INTERVAL : Q := 18 # 100.
Definition SPAWN_ACCEL_TIME : Q := 60 # 1.
Definition ENEMY_SPEED_BASE : Q := 180 # 1.
Definition ENEMY_SPEED_MAX : Q := 560 # 1.
Definition POWERUP_INTERVAL : Q * Q := (6 # 1, 11 # 1)%Q.

(** Game states: [S_MENU, S_PLAY, S_PAUSE, S_GAMEOVER = range(4)]. *)
Inductive State : Set := S_MENU | S_PLAY | S_PAUSE | S_GAMEOVER.

Definition State_eqb (a b : State) : bool :=
  match a, b with
  | S_MENU, S_MENU | S_PLAY, S_PLAY | S_PAUSE, S_PAUSE
  | S_GAMEOVER, S_GAMEOVER => true
  | _, _ => false
  end.

(** ** Python numerics *)

(** [a < b] on floats. *)
Definition Qltb (a b : Q) : bool :=
  match (a ?= b)%Q with Lt => true | _ => false end.

(** [a >= b] on floats. *)
Definition Qgeb (a b : Q) : bool := Qle_bool b a.

(** [max(a, b)]: the first argument is kept unless the second is larger. *)
Definition py_max (a b : Q) : Q := if Qltb a b then b else a.

(** [min(a, b)]: the first argument is kept unless the second is smaller. *)
Definition py_min (a b : Q) : Q := if Qltb b a then b else a.

(** [clamp(v, lo, hi) = max(lo, min(hi, v))] (lines 100-101), on floats. *)
Definition clamp (v lo hi : Q) : Q := py_max lo (py_min hi v).

(** The same [clamp] applied to [int] arguments. *)
Definition clampZ (v lo hi : Z) : Z := Z.max lo (Z.min hi v).

(** [int(x)] for a float [x]: truncation toward zero. *)
Definition py_int (q : Q) : Z := Z.quot (Qnum q) (Z.pos (Qden q)).

(** Truth value of a number ([if vx or vy]). *)
Definition truthy (v : Z) : bool := negb (v =? 0).

(** [math.hypot] on the integral direction components that [Player.update]
    passes.  The square root is taken to 52 fractional bits, rounded to
    nearest, which is the binary64 result for values in [1, 2): [hypot 1 0]
    is 1 and [hypot 1 1] is 6369051672525773 / 2^52. *)
Definition hypot (vx vy : Z) : Q :=
  ((Z.sqrt ((vx * vx + vy * vy) * 2 ^ 106) + 1) / 2) # (2 ^ 52).

(** ** pygame.Rect: integer position and size *)

Module Rect.
Record t : Set := mk { x : Z; y : Z; w : Z; h : Z }.

Definition left (r : t) : Z := x r.
Definition top (r : t) : Z := y r.
Definition right (r : t) : Z := x r + w r.
Definition bottom (r : t) : Z := y r + h r.

Definition set_x (v : Z) (r : t) : t := mk v (y r) (w r) (h r).
Definition set_y (v : Z) (r : t) : t := mk (x r) v (w r) (h r).
(** [r.centerx = v] and [r.bottom = v] move the rectangle. *)
Definition set_centerx (v : Z) (r : t) : t := set_x (v - w r / 2) r.
Definition set_bottom (v : Z) (r : t) : t := set_y (v - h r) r.

(** [a.colliderect(b)]: axis-aligned overlap; a rectangle with a zero side
    overlaps nothing. *)
Definition colliderect (a b : t) : bool :=
  if (w a =? 0) || (h a =? 0) || (w b =? 0) || (h b =? 0) then false
  else
    (Z.min (x a) (x a + w a) <? Z.max (x b) (x b + w b)) &&
    (Z.min (y a) (y a + h a) <? Z.max (y b) (y b + h b)) &&
    (Z.min (x b) (x b + w b) <? Z.max (x a) (x a + w a)) &&
    (Z.min (y b) (y b + h b) <? Z.max (y a) (y a + h a)).
End Rect.

(** Keys read by the game from [pygame.key.get_pressed()]. *)
Record Keys : Set := mkKeys {
  K_a : bool; K_LEFT : bool; K_d : bool; K_RIGHT : bool;
  K_w : bool; K_UP : bool; K_s : bool; K_DOWN : bool;
  K_SPACE : bool; K_LCTRL : bool
}.

Definition no_keys : Keys :=
  mkKeys false false false false false false false false false false.

(** ** class Player (lines 106-165) *)

Module Player.
Record t : Set := mk {
  size : Z;
  rect : Rect.t;
  speed : Q;
  invincible_until : Q;
  has_shield : bool;
  dash_until : Q;
  dash_cd_until : Q
}.

Definition set_rect (r : Rect.t) (p : t) : t :=
  mk (size p) r (speed p) (invincible_until p) (has_shield p)
     (dash_until p) (dash_cd_until p).
Definition set_invincible_until (v : Q) (p : t) : t :=
  mk (size p) (rect p) (speed p) v (has_shield p)
     (dash_until p) (dash_cd_until p).
Definition set_has_shield (v : bool) (p : t) : t :=
  mk (size p) (rect p) (speed p) (invincible_until p) v
     (dash_until p) (dash_cd_until p).
Definition set_dash_until (v : Q) (p : t) : t :=
  mk (size p) (rect p) (speed p) (invincible_until p) (has_shield p)
     v (dash_cd_until p).
Definition set_dash_cd_until (v : Q) (p : t) : t :=
  mk (size p) (rect p) (speed p) (invincible_until p) (has_shield p)
     (dash_until p) v.

(** [__init__] *)
Definition init : t :=
  mk PLAYER_SIZE
     (Rect.mk (WIDTH / 2 - PLAYER_SIZE / 2) (HEIGHT - PLAYER_SIZE * 2)
              PLAYER_SIZE PLAYER_SIZE)
     PLAYER_SPEED 0 false 0 0.

Definition start (p : t) : t :=
  let p := set_rect (Rect.set_centerx (WIDTH / 2) (rect p)) p in
  let p := set_rect (Rect.set_bottom (HEIGHT - 16) (rect p)) p in
  let p := set_invincible_until 0 p in
  let p := set_dash_until 0 p in
  let p := set_dash_cd_until 0 p in
  set_has_shield false p.

(** The direction read from the keyboard, before normalisation. *)
Definition direction (keys : Keys) : Z * Z :=
  let vx := 0 in
  let vy := 0 in
  let vx := if K_a keys || K_LEFT keys then vx - 1 else vx in
  let vx := if K_d keys || K_RIGHT keys then vx + 1 else vx in
  let vy := if K_w keys || K_UP keys then vy - 1 else vy in
  let vy := if K_s keys || K_DOWN keys then vy + 1 else vy in
  (vx, vy).

(** The speed in force at [now]. *)
Definition effective_speed (now : Q) (p : t) : Q :=
  if Qltb now (dash_until p) then DASH_SPEED else speed p.

(** The normalisation step: [vx, vy = vx/mag, vy/mag] when moving. *)
Definition normalize (v : Z * Z) : Q * Q :=
  let '(vx, vy) := v in
  if truthy vx || truthy vy then
    let mag := hypot vx vy in
    ((inject_Z vx / mag)%Q, (inject_Z vy / mag)%Q)
  else (inject_Z vx, inject_Z vy).

Definition update (dt : Q) (keys : Keys) (now : Q) (p : t) : t :=
  let spd := effective_speed now p in
  let '(vx, vy) := normalize (direction keys) in
  let r := rect p in
  let r := Rect.set_x (Rect.x r + py_int (vx * spd * dt)) r in
  let r := Rect.set_y (Rect.y r + py_int (vy * spd * dt)) r in
  let r := Rect.set_x (clampZ (Rect.x r) 0 (WIDTH - size p)) r in
  let r := Rect.set_y (clampZ (Rect.y r) 0 (HEIGHT - size p)) r in
  set_rect r p.

(** Returns whether the dash started, and the player afterwards. *)
Definition try_dash (now : Q) (p : t) : bool * t :=
  if Qgeb now (dash_cd_until p) then
    let p := set_dash_until (now + DASH_TIME)%Q p in
    let p := set_dash_cd_until (now + DASH_COOLDOWN)%Q p in
    let p := set_invincible_until
               (py_max (invincible_until p)
                       (now + DASH_TIME * (9 # 10))%Q) p in
    (true, p)
  else (false, p).

(** Returns [True] for a lethal hit, and the player afterwards. *)
Definition hit (now : Q) (p : t) : bool * t :=
  if Qltb now (invincible_until p) then (false, p)
  else if has_shield p then
    let p := set_has_shield false p in
    let p := set_invincible_until (now + INVINCIBLE_AFTER_HIT)%Q p in
    (false, p)
  else (true, p).
End Player.

(** ** Object identity and [list.remove]

    [Enemy] and [PowerUp] define no [__eq__], so [list.remove(o)] deletes the
    first entry that is the object [o] itself.  Every entity therefore
    carries the identity [oid] it received when it was created.
    [list.remove] raises [ValueError] when the object is absent: [None]. *)

Section ListRemove.
Context {A : Type} (oid : A -> nat).

Fixpoint list_remove (o : A) (l : list A) : option (list A) :=
  match l with
  | [] => None
  | a :: l' =>
      if Nat.eqb (oid a) (oid o) then Some l'
      else match list_remove o l' with
           | Some r => Some (a :: r)
           | None => None
           end
  end.

(** Number of entries of [l] with identity [i]. *)
Definition occurrences (i : nat) (l : list A) : nat :=
  length (filter (fun a => Nat.eqb (oid a) i) l).

(** What is left of the iterated copy [snap] still occurs in the live list:
    the condition under which the removals of a loop cannot fail. *)
Definition covered (snap live : list A) : Prop :=
  forall i, (occurrences i snap <= occurrences i live)%nat.
End ListRemove.

(** ** class Enemy (lines 178-192) *)

Module Enemy.
Record t : Set := mk {
  oid : nat;
  size : Z;
  rect : Rect.t;
  speed : Q;
  drift : Q
}.

(** The random draws of one [Enemy(...)] construction, in program order. *)
Record draw : Set := mkDraw {
  d_x : Z;        (* random.randint(0, WIDTH - size) *)
  d_yoff : Z;     (* random.randint(0, 200) *)
  d_drift : Q     (* random.uniform(-60, 60) *)
}.

(** [__init__(speed)] for the object with identity [o]. *)
Definition init (o : nat) (d : draw) (spd : Q) : t :=
  let x := d_x d in
  let y := - ENEMY_SIZE - d_yoff d in
  mk o ENEMY_SIZE (Rect.mk x y ENEMY_SIZE ENEMY_SIZE) spd (d_drift d).

(** [update(dt)]: the enemy afterwards and the liveness it returns. *)
Definition update (dt : Q) (e : t) : t * bool :=
  let r := rect e in
  let r := Rect.set_y (Rect.y r + py_int (speed e * dt)) r in
  let r := Rect.set_x (Rect.x r + py_int (drift e * dt)) r in
  let dr := if (Rect.left r <? 0) || (WIDTH <? Rect.right r)
            then (- drift e)%Q else drift e in
  (mk (oid e) (size e) r (speed e) dr, Rect.top r <=? HEIGHT).
End Enemy.

(** ** class PowerUp (lines 197-211) *)

Module PowerUp.
(** [TYPES = ("shield",)] *)
Inductive kind_t : Set := shield.

Record t : Set := mk {
  oid : nat;
  kind : kind_t;
  rect : Rect.t;
  speed : Q
}.

Record draw : Set := mkDraw {
  d_kind : kind_t;  (* random.choice(TYPES) *)
  d_x : Z;          (* random.randint(20, WIDTH - 20 - POWERUP_SIZE) *)
  d_yoff : Z;       (* random.randint(40, 200) *)
  d_speed : Q       (* random.uniform(120, 200) *)
}.

Definition init (o : nat) (d : draw) : t :=
  mk o (d_kind d)
     (Rect.mk (d_x d) (- POWERUP_SIZE - d_yoff d) POWERUP_SIZE POWERUP_SIZE)
     (d_speed d).

Definition update (dt : Q) (p : t) : t * bool :=
  let r := rect p in
  let r := Rect.set_y (Rect.y r + py_int (speed p * dt)) r in
  (mk (oid p) (kind p) r (speed p), Rect.top r <=? HEIGHT).
End PowerUp.

(** [[o for o in l if o.update(dt)]]: every object is updated, the ones
    whose update returns [True] are kept (already updated). *)
Definition update_and_keep {A : Type} (upd : A -> A * bool) (l : list A)
  : list A :=
  map fst (filter snd (map upd l)).

(** ** The high-score file (lines 58-73)

    The file holds one integer; [None] stands for an absent or unreadable
    file. *)

Definition load_high_score (file : option Z) : Z :=
  match file with
  | Some n => n
  | None => 0
  end.

(** [save_high_score(score)]: a failing write is swallowed and leaves the
    file as it was ([io_ok = false]). *)
Definition save_high_score (io_ok : bool) (score : Z) (file : option Z)
  : option Z :=
  if io_ok then Some score else file.

(** ** pygame events read by [Game.run] (lines 417-442) *)

Module Event.
(** The keys that [run] tests for; every other key is [K_other]. *)
Inductive key : Set :=
  | K_RETURN | K_KP_ENTER | K_ESCAPE | K_q | K_p | K_SPACE | K_r | K_other.

(** [event.type]: [QUIT], [KEYDOWN] with its [event.key], or anything
    else. *)
Inductive t : Set :=
  | QUIT
  | KEYDOWN (k : key)
  | OTHER.

(** An event together with what its handler reads from outside: the value
    of [time.perf_counter()] and the draw of [random.uniform] in [reset]. *)
Record input : Set := mkInput {
  event : t;
  clock : Q;
  interval : Q
}.
End Event.

(** ** class Game (lines 221-337) *)

Module Game.
Record t : Type := mk {
  state : State;
  player : Player.t;
  enemies : list Enemy.t;
  powerups : list PowerUp.t;
  score : Q;
  start_time : Q;
  last_spawn : Q;
  next_powerup_t : Q;
  game_over_time : option Q;
  high_score : Z
}.

Definition set_state (v : State) (g : t) : t :=
  mk v (player g) (enemies g) (powerups g) (score g) (start_time g)
     (last_spawn g) (next_powerup_t g) (game_over_time g) (high_score g).
Definition set_player (v : Player.t) (g : t) : t :=
  mk (state g) v (enemies g) (powerups g) (score g) (start_time g)
     (last_spawn g) (next_powerup_t g) (game_over_time g) (high_score g).
Definition set_enemies (v : list Enemy.t) (g : t) : t :=
  mk (state g) (player g) v (powerups g) (score g) (start_time g)
     (last_spawn g) (next_powerup_t g) (game_over_time g) (high_score g).
Definition set_powerups (v : list PowerUp.t) (g : t) : t :=
  mk (state g) (player g) (enemies g) v (score g) (start_time g)
     (last_spawn g) (next_powerup_t g) (game_over_time g) (high_score g).
Definition set_score (v : Q) (g : t) : t :=
  mk (state g) (player g) (enemies g) (powerups g) v (start_time g)
     (last_spawn g) (next_powerup_t g) (game_over_time g) (high_score g).
Definition set_last_spawn (v : Q) (g : t) : t :=
  mk (state g) (player g) (enemies g) (powerups g) (score g) (start_time g)
     v (next_powerup_t g) (game_over_time g) (high_score g).
Definition set_next_powerup_t (v : Q) (g : t) : t :=
  mk (state g) (player g) (enemies g) (powerups g) (score g) (start_time g)
     (last_spawn g) v (game_over_time g) (high_score g).
Definition set_game_over_time (v : option Q) (g : t) : t :=
  mk (state g) (player g) (enemies g) (powerups g) (score g) (start_time g)
     (last_spawn g) (next_powerup_t g) v (high_score g).
Definition set_high_score (v : Z) (g : t) : t :=
  mk (state g) (player g) (enemies g) (powerups g) (score g) (start_time g)
     (last_spawn g) (next_powerup_t g) (game_over_time g) v.

(** The game object together with what lives outside it: the high-score
    file and the supply of fresh object identities. *)
Record world : Type := mkWorld {
  game : t;
  hs_file : option Z;
  next_oid : nat
}.

Definition with_game (f : t -> t) (w : world) : world :=
  mkWorld (f (game w)) (hs_file w) (next_oid w).

(** What one call of [update] reads from outside, in program order. *)
Record env : Set := mkEnv {
  r_second : Q;             (* random.random(), second-enemy draw *)
  r_factor1 : Q;            (* random.uniform(0.9, 1.15), first enemy *)
  r_enemy1 : Enemy.draw;
  r_factor2 : Q;            (* random.uniform(0.9, 1.15), second enemy *)
  r_enemy2 : Enemy.draw;
  r_powerup : PowerUp.draw;
  r_interval : Q;           (* random.uniform( *POWERUP_INTERVAL) *)
  t_over : Q;               (* time.perf_counter() read by game_over *)
  io_ok : bool              (* whether the high-score write succeeds *)
}.

(** [reset()]: [now] is the clock reading, [interval] the draw of
    [random.uniform( *POWERUP_INTERVAL)]. *)
Definition reset (now interval : Q) (g : t) : t :=
  mk (state g) (Player.start Player.init) [] [] 0 now 0 interval None
     (high_score g).

(** [__init__()], without the display set-up. *)
Definition init (now interval : Q) (file : option Z) : world :=
  let g := mk S_MENU Player.init [] [] 0 0 0 0 None 0 in
  let g := reset now interval g in
  mkWorld (set_high_score (load_high_score file) g) file 0.

Definition difficulty (t : Q) : Q * Q :=
  let k := clamp (t / SPAWN_ACCEL_TIME) 0 1 in
  let spawn := (SPAWN_BASE_INTERVAL * (1 - k) + SPAWN_MIN_INTERVAL * k)%Q in
  let speed := (ENEMY_SPEED_BASE * (1 - k) + ENEMY_SPEED_MAX * k)%Q in
  (spawn, speed).

Definition spawn_enemy (d : Enemy.draw) (speed : Q) (w : world) : world :=
  let e := Enemy.init (next_oid w) d speed in
  mkWorld (set_enemies (enemies (game w) ++ [e]) (game w))
          (hs_file w) (S (next_oid w)).

Definition spawn_powerup (d : PowerUp.draw) (w : world) : world :=
  let p := PowerUp.init (next_oid w) d in
  mkWorld (set_powerups (powerups (game w) ++ [p]) (game w))
          (hs_file w) (S (next_oid w)).

Definition game_over (t_now : Q) (ok : bool) (w : world) : world :=
  let g := set_state S_GAMEOVER (game w) in
  let g := set_game_over_time (Some t_now) g in
  let final_score := py_int (score g) in
  if high_score g <? final_score then
    mkWorld (set_high_score final_score g)
            (save_high_score ok final_score (hs_file w)) (next_oid w)
  else mkWorld g (hs_file w) (next_oid w).

(** First loop of [handle_collisions]: [snap] is what is left of the copy
    [list(self.enemies)] being iterated. *)
Fixpoint collide_enemies (now : Q) (ev : env) (snap : list Enemy.t)
         (w : world) : option world :=
  match snap with
  | [] => Some w
  | e :: snap' =>
      if Rect.colliderect (Player.rect (player (game w))) (Enemy.rect e)
      then
        let '(lethal, p) := Player.hit now (player (game w)) in
        let w := with_game (set_player p) w in
        if lethal then
          collide_enemies now ev snap' (game_over (t_over ev) (io_ok ev) w)
        else
          match list_remove Enemy.oid e (enemies (game w)) with
          | Some l => collide_enemies now ev snap' (with_game (set_enemies l) w)
          | None => None
          end
      else collide_enemies now ev snap' w
  end.

(** Second loop of [handle_collisions], over [list(self.powerups)]. *)
Fixpoint collide_powerups (snap : list PowerUp.t) (w : world)
  : option world :=
  match snap with
  | [] => Some w
  | p :: snap' =>
      if Rect.colliderect (Player.rect (player (game w))) (PowerUp.rect p)
      then
        let w :=
          match PowerUp.kind p with
          | PowerUp.shield =>
              with_game (fun g => set_player
                                    (Player.set_has_shield true (player g)) g) w
          end in
        match list_remove PowerUp.oid p (powerups (game w)) with
        | Some l => collide_powerups snap' (with_game (set_powerups l) w)
        | None => None
        end
      else collide_powerups snap' w
  end.

Definition handle_collisions (now : Q) (ev : env) (w : world)
  : option world :=
  match collide_enemies now ev (enemies (game w)) w with
  | Some w => collide_powerups (powerups (game w)) w
  | None => None
  end.

(** [update(dt)], phase by phase as the comments of the source divide it;
    [now] and [keys] are the clock and keyboard readings taken on entry. *)

(** Lines 306-311: move the player, then try to dash. *)
Definition update_player (dt now : Q) (keys : Keys) (w : world) : world :=
  let w := with_game
             (fun g => set_player (Player.update dt keys now (player g)) g)
             w in
  if K_SPACE keys || K_LCTRL keys then
    with_game
      (fun g => set_player (snd (Player.try_dash now (player g))) g) w
  else w.

(** Lines 317-322: spawn one or two enemies when the interval has passed. *)
Definition update_spawn (now elapsed spawn_interval enemy_speed : Q)
           (ev : env) (w : world) : world :=
  if Qgeb (now - last_spawn (game w)) spawn_interval then
    let w := with_game (set_last_spawn now) w in
    let second := Qltb (r_second ev) (py_min (35 # 100) (elapsed / 90)) in
    let w := spawn_enemy (r_enemy1 ev) (enemy_speed * r_factor1 ev) w in
    if second
    then spawn_enemy (r_enemy2 ev) (enemy_speed * r_factor2 ev) w
    else w
  else w.

(** Lines 325-327: the power-up timer. *)
Definition update_powerup_timer (elapsed : Q) (ev : env) (w : world)
  : world :=
  if Qgeb elapsed (next_powerup_t (game w)) then
    let w := spawn_powerup (r_powerup ev) w in
    with_game (set_next_powerup_t (elapsed + r_interval ev)) w
  else w.

(** Lines 330-331: advance enemies and power-ups, dropping the ones that
    left the field. *)
Definition update_entities (dt : Q) (w : world) : world :=
  let w := with_game
             (fun g => set_enemies
                         (update_and_keep (Enemy.update dt) (enemies g)) g)
             w in
  with_game
    (fun g => set_powerups
                (update_and_keep (PowerUp.update dt) (powerups g)) g)
    w.

(** Line 337: the score. *)
Definition update_score (elapsed : Q) (w : world) : world :=
  with_game
    (fun g => set_score
                (elapsed * 10 +
                 inject_Z (Z.max 0 (Z.of_nat (length (enemies g)) - 4)))
                g) w.

Definition update (dt now : Q) (keys : Keys) (ev : env) (w : world)
  : option world :=
  if State_eqb (state (game w)) S_PLAY then
    let w := update_player dt now keys w in
    let elapsed := (now - start_time (game w))%Q in
    let '(spawn_interval, enemy_speed) := difficulty elapsed in
    let w := update_spawn now elapsed spawn_interval enemy_speed ev w in
    let w := update_powerup_timer elapsed ev w in
    let w := update_entities dt w in
    match handle_collisions now ev w with
    | Some w => Some (update_score elapsed w)
    | None => None
    end
  else Some w.

(** [run()], lines 414-447.  [sys.exit()] is [None] in [handle_event]. *)
Definition handle_event (i : Event.input) (w : world) : option world :=
  match Event.event i with
  | Event.QUIT => None
  | Event.KEYDOWN k =>
      match state (game w) with
      | S_MENU =>
          match k with
          | Event.K_RETURN | Event.K_KP_ENTER =>
              Some (with_game
                      (fun g => reset (Event.clock i) (Event.interval i)
                                      (set_state S_PLAY g)) w)
          | Event.K_ESCAPE | Event.K_q => None
          | _ => Some w
          end
      | S_PLAY =>
          match k with
          | Event.K_p | Event.K_ESCAPE => Some (with_game (set_state S_PAUSE) w)
          | Event.K_SPACE =>
              Some (with_game
                      (fun g => set_player
                                  (snd (Player.try_dash (Event.clock i) (player g)))
                                  g) w)
          | _ => Some w
          end
      | S_PAUSE =>
          match k with
          | Event.K_p | Event.K_ESCAPE => Some (with_game (set_state S_PLAY) w)
          | Event.K_q => None
          | _ => Some w
          end
      | S_GAMEOVER =>
          match k with
          | Event.K_r =>
              Some (with_game
                      (fun g => reset (Event.clock i) (Event.interval i)
                                      (set_state S_PLAY g)) w)
          | Event.K_q | Event.K_ESCAPE => None
          | _ => Some w
          end
      end
  | Event.OTHER => Some w
  end.

(** The [for event in pygame.event.get()] loop. *)
Fixpoint handle_events (evs : list Event.input) (w : world) : option world :=
  match evs with
  | [] => Some w
  | i :: evs' =>
      match handle_event i w with
      | Some w' => handle_events evs' w'
      | None => None
      end
  end.

(** What one pass of the [while True] loop reads: the milliseconds returned
    by [clock.tick(FPS)], the pending events, and the readings of
    [update]. *)
Record frame : Set := mkFrame {
  f_ms : Z;
  f_events : list Event.input;
  f_now : Q;
  f_keys : Keys;
  f_env : env
}.

(** How the loop stands after some frames: still running, left through
    [sys.exit()], or stopped by the [ValueError] of [list.remove]. *)
Inductive outcome : Type :=
  | Running (w : world)
  | Exited
  | Raised.

(** One pass of the loop body (drawing changes nothing in the game). *)
Definition run_frame (f : frame) (w : world) : outcome :=
  let dt := (inject_Z (f_ms f) / 1000)%Q in
  match handle_events (f_events f) w with
  | None => Exited
  | Some w =>
      if State_eqb (state (game w)) S_PLAY then
        match update dt (f_now f) (f_keys f) (f_env f) w with
        | Some w' => Running w'
        | None => Raised
        end
      else Running w
  end.

(** [run()] over the frames [fs]. *)
Fixpoint run (fs : list frame) (w : world) : outcome :=
  match fs with
  | [] => Running w
  | f :: fs' =>
      match run_frame f w with
      | Running w' => run fs' w'
      | Exited => Exited
      | Raised => Raised
      end
  end.
End Game.

(** ** Observations used in the statements *)

(** The three outcomes of [Player.hit], read off a call: a lethal hit
    returns [True]; a hit that returns [False] was absorbed by the shield
    when the call consumed it, by invincibility otherwise. *)
Inductive Outcome : Set :=
  | absorbed_by_invincibility
  | absorbed_by_shield
  | lethal.

Definition hit_outcome (now : Q) (p : Player.t) : Outcome :=
  let '(is_lethal, p') := Player.hit now p in
  if is_lethal then lethal
  else if Player.has_shield p && negb (Player.has_shield p')
       then absorbed_by_shield
       else absorbed_by_invincibility.

(** The player can take a hit at [now] without dying: it is invincible or
    holds a shield. *)
Definition protected (now : Q) (p : Player.t) : Prop :=
  Qltb now (Player.invincible_until p) = true \/ Player.has_shield p = true.

(** The enemies of [es] whose rectangle overlaps [r]. *)
Definition overlapping (r : Rect.t) (es : list Enemy.t) : list Enemy.t :=
  filter (fun e => Rect.colliderect r (Enemy.rect e)) es.

(** Successive [update(dt)] calls on one enemy, one per tick. *)
Definition enemy_after (dts : list Q) (e : Enemy.t) : Enemy.t :=
  fold_left (fun e dt => fst (Enemy.update dt e)) dts e.

(** Total time of a sequence of ticks. *)
Definition total_time (dts : list Q) : Q := fold_right Qplus 0%Q dts.

(** Sum of the whole-pixel steps taken at speed [spd] over the ticks. *)
Definition pixel_steps (spd : Q) (dts : list Q) : Z :=
  fold_right (fun dt acc => py_int (spd * dt) + acc) 0 dts.

(** How far one [Player.update] moves the player, in pixels. *)
Definition displacement (dt : Q) (keys : Keys) (now : Q) (p : Player.t)
  : Z * Z :=
  let p' := Player.update dt keys now p in
  (Rect.x (Player.rect p') - Rect.x (Player.rect p),
   Rect.y (Player.rect p') - Rect.y (Player.rect p)).

(** Square of the Euclidean length of a pixel vector. *)
Definition sq_norm (d : Z * Z) : Z := fst d * fst d + snd d * snd d.

(** The player's rectangle lies inside the play field. *)
Definition in_field (p : Player.t) : Prop :=
  0 <= Rect.x (Player.rect p) <= WIDTH - Player.size p /\
  0 <= Rect.y (Player.rect p) <= HEIGHT - Player.size p.

(** ** Reference definitions taken from the specification *)

(** [clamp(v, lo, hi)] as the usual three-way case split. *)
Definition clamp_ref (v lo hi : Q) : Q :=
  if Qltb v lo then lo else if Qltb hi v then hi else v.

(** The difficulty curve as the specification words it: both outputs are
    linear interpolations between a base value and a limit value, with
    [k = clamp(elapsed / ACCEL_TIME, 0, 1)]. *)
Definition difficulty_ref (elapsed : Q) : Q * Q :=
  let k := clamp_ref (elapsed / SPAWN_ACCEL_TIME) 0 1 in
  ((SPAWN_BASE_INTERVAL * (1 - k) + SPAWN_MIN_INTERVAL * k)%Q,
   (ENEMY_SPEED_BASE * (1 - k) + ENEMY_SPEED_MAX * k)%Q).

(** ** Concrete states used in the examples *)

(** A shielded player whose invincibility has run out. *)
Definition shielded : Player.t := Player.set_has_shield true Player.init.

(** A shielded player that is still invincible at time 5. *)
Definition shielded_invincible : Player.t :=
  Player.set_invincible_until 10 (Player.set_has_shield true Player.init).

(** The player right after a dash triggered at clock time 105: no shield,
    invincible until 105.162. *)
Definition dashed_player : Player.t :=
  snd (Player.try_dash 105 (Player.start Player.init)).

(** A player in the middle of the field, not dashing. *)
Definition mid_player : Player.t :=
  Player.set_rect (Rect.mk 400 300 PLAYER_SIZE PLAYER_SIZE) Player.init.

(** Keyboard states: right held, right and down held, the dash key held. *)
Definition keys_right : Keys :=
  mkKeys false false false true false false false false false false.

Definition keys_right_down : Keys :=
  mkKeys false false false true false false false true false false.

Definition keys_space : Keys :=
  mkKeys false false false false false false false false true false.

(** An enemy created at the top edge, falling at 200 px/s without drift. *)
Definition top_enemy : Enemy.t :=
  Enemy.init 0 (Enemy.mkDraw 100 0 0) 200.

(** One second at 60 frames per second, as [clock.tick] reports it: 54
    frames of 16 ms and 8 frames of 17 ms. *)
Definition second_at_60fps : list Q :=
  repeat (16 # 1000)%Q 54 ++ repeat (17 # 1000)%Q 8.

(** One second in 50 frames of 20 ms. *)
Definition second_at_50fps : list Q := repeat (20 # 1000)%Q 50.

(** A tick environment whose draws are never consulted in the examples. *)
Definition quiet_env : Game.env :=
  Game.mkEnv 1 1 (Enemy.mkDraw 0 0 0) 1 (Enemy.mkDraw 0 0 0)
             (PowerUp.mkDraw PowerUp.shield 20 40 120) 8 0 true.

(** A session in progress with the given score and best score; the
    high-score file holds the best score. *)
Definition session (sc : Q) (best : Z) : Game.world :=
  Game.with_game
    (fun g => Game.set_score sc (Game.set_state S_PLAY g))
    (Game.init 100 8 (Some best)).

(** Enemy number [i], falling at 180 px/s far to the left of the player. *)
Definition far_enemy (i : nat) (y : Z) : Enemy.t :=
  Enemy.mk i ENEMY_SIZE
           (Rect.mk (Z.of_nat i * 40) y ENEMY_SIZE ENEMY_SIZE) 180 0.

(** A session started at clock time 100 with six live enemies, the last of
    them two pixels above the bottom edge; an enemy was spawned at 104.9. *)
Definition crowded_session : Game.world :=
  Game.mkWorld
    (Game.set_last_spawn (1049 # 10)
       (Game.set_enemies
          [far_enemy 0 0; far_enemy 1 0; far_enemy 2 0; far_enemy 3 0;
           far_enemy 4 0; far_enemy 5 538]
          (Game.game (session 0 0))))
    (Some 0) 6.

(** An enemy that overlaps the player's start position. *)
Definition overlapping_enemy : Enemy.t :=
  Enemy.mk 0 ENEMY_SIZE (Rect.mk 470 480 ENEMY_SIZE ENEMY_SIZE) 200 0.

(** A session in which the dashing player overlaps one enemy. *)
Definition dash_session : Game.world :=
  Game.mkWorld
    (Game.set_player dashed_player
       (Game.set_enemies [overlapping_enemy] (Game.game (session 0 0))))
    (Some 0) 1.

(** A session in which one enemy, falling at 200 px/s, is three pixels
    above the position where it overlaps the player; an enemy was spawned
    at 104.9. *)
Definition approach_session : Game.world :=
  Game.mkWorld
    (Game.set_last_spawn (1049 # 10)
       (Game.set_enemies
          [Enemy.mk 0 ENEMY_SIZE (Rect.mk 470 477 ENEMY_SIZE ENEMY_SIZE) 200 0]
          (Game.game (session 0 0))))
    (Some 0) 1.

(** ** Presentation helpers (lines 84-92 and 346-351) *)

(** The dash line of [draw_hud]: ["Dash Ready"], or the time left (the
    formatting of the number is not modelled). *)
Inductive dash_info : Set :=
  | Dash_Ready
  | Dash_wait (cd_left : Q).

Definition hud_dash_info (now : Q) (p : Player.t) : dash_info :=
  let cd_left := py_max 0 (Player.dash_cd_until p - now)%Q in
  if Qle_bool cd_left 0 then Dash_Ready else Dash_wait cd_left.

(** A colour [(r, g, b)]. *)
Definition color : Set := (Z * Z * Z)%type.

(** Colour of line [y] of [draw_vgradient] on a surface of height [h];
    [None] is the [ZeroDivisionError] of [y / (h - 1)]. *)
Definition gradient_color (h y : Z) (top_color bottom_color : color)
  : option color :=
  if h - 1 =? 0 then None
  else
    let t := (inject_Z y / inject_Z (h - 1))%Q in
    let '(tr, tg, tb) := top_color in
    let '(br, bg, bb) := bottom_color in
    let r := py_int (inject_Z tr * (1 - t) + inject_Z br * t) in
    let g := py_int (inject_Z tg * (1 - t) + inject_Z bg * t) in
    let b := py_int (inject_Z tb * (1 - t) + inject_Z bb * t) in
    Some (r, g, b).

(** The [for y in range(h)] loop over the lines [ys] still to draw: the
    colours of the lines drawn, in order. *)
Fixpoint gradient_lines (h : Z) (ys : list Z) (top_color bottom_color : color)
  : option (list color) :=
  match ys with
  | [] => Some []
  | y :: ys' =>
      match gradient_color h y top_color bottom_color with
      | None => None
      | Some c =>
          match gradient_lines h ys' top_color bottom_color with
          | None => None
          | Some cs => Some (c :: cs)
          end
      end
  end.

(** [range(h)] *)
Definition range (h : Z) : list Z := map Z.of_nat (seq 0 (Z.to_nat h)).

(** [draw_vgradient] on a surface of height [h]. *)
Definition draw_vgradient (h : Z) (top_color bottom_color : color)
  : option (list color) :=
  gradient_lines h (range h) top_color bottom_color.

Definition C_BG_TOP : color := (10, 23, 52).
Definition C_BG_BOTTOM : color := (3, 8, 18).

Definition keys_left : Keys :=
  mkKeys false true false false false false false false false false.

Definition keys_left_right : Keys :=
  mkKeys true false false true false false false false false false.

(** ** Well-formed worlds *)

(** [thinned l' l]: [l'] is [l] with some entries deleted. *)
Inductive thinned {A : Type} : list A -> list A -> Prop :=
  | thinned_nil : thinned [] []
  | thinned_keep a l' l : thinned l' l -> thinned (a :: l') (a :: l)
  | thinned_drop a l' l : thinned l' l -> thinned l' (a :: l).

(** The parts of a player that only [Player.update] and [try_dash] touch. *)
Definition same_body (p p' : Player.t) : Prop :=
  Player.rect p' = Player.rect p /\
  Player.size p' = Player.size p /\
  Player.speed p' = Player.speed p /\
  Player.dash_until p' = Player.dash_until p /\
  Player.dash_cd_until p' = Player.dash_cd_until p.

(** The file holds what the game shows as best score: a restart would load
    the same value. *)
Definition saved (w : Game.world) : Prop :=
  load_high_score (Game.hs_file w) = Game.high_score (Game.game w).

(** No live entity is below the bottom edge. *)
Definition above_bottom (w : Game.world) : Prop :=
  Forall (fun e => Rect.top (Enemy.rect e) <= HEIGHT)
         (Game.enemies (Game.game w)) /\
  Forall (fun p => Rect.top (PowerUp.rect p) <= HEIGHT)
         (Game.powerups (Game.game w)).

(** Live entities are distinct objects, all created before [next_oid]. *)
Definition distinct (w : Game.world) : Prop :=
  NoDup (map Enemy.oid (Game.enemies (Game.game w))) /\
  NoDup (map PowerUp.oid (Game.powerups (Game.game w))) /\
  Forall (fun e => (Enemy.oid e < Game.next_oid w)%nat)
         (Game.enemies (Game.game w)) /\
  Forall (fun p => (PowerUp.oid p < Game.next_oid w)%nat)
         (Game.powerups (Game.game w)).

(** What a collision phase may change between [w] and [w']: entities are
    only deleted, the player keeps its body, the session can only end, the
    best score can only grow, and the timers stay. *)
Definition settled (ev : Game.env) (w w' : Game.world) : Prop :=
  thinned (Game.enemies (Game.game w')) (Game.enemies (Game.game w)) /\
  thinned (Game.powerups (Game.game w')) (Game.powerups (Game.game w)) /\
  same_body (Game.player (Game.game w)) (Game.player (Game.game w')) /\
  (Game.state (Game.game w') = Game.state (Game.game w) \/
   Game.state (Game.game w') = S_GAMEOVER) /\
  Game.high_score (Game.game w) <= Game.high_score (Game.game w') /\
  Game.next_oid w' = Game.next_oid w /\
  Game.start_time (Game.game w') = Game.start_time (Game.game w) /\
  Game.last_spawn (Game.game w') = Game.last_spawn (Game.game w) /\
  Game.next_powerup_t (Game.game w') = Game.next_powerup_t (Game.game w) /\
  (saved w -> Game.io_ok ev = true -> saved w').

(** The world on which [update] calls [handle_collisions]: the player has
    moved, spawning is done and the entities have advanced. *)
Definition before_collisions (dt now : Q) (keys : Keys) (ev : Game.env)
           (w : Game.world) : Game.world :=
  let w := Game.update_player dt now keys w in
  let elapsed := (now - Game.start_time (Game.game w))%Q in
  let '(spawn_interval, enemy_speed) := Game.difficulty elapsed in
  let w := Game.update_spawn now elapsed spawn_interval enemy_speed ev w in
  let w := Game.update_powerup_timer elapsed ev w in
  Game.update_entities dt w.

(** Identities [ids] are pairwise different and were all handed out before
    [n]. *)
Definition fresh_below (n : nat) (ids : list nat) : Prop :=
  NoDup ids /\ Forall (fun i => (i < n)%nat) ids.

(** A shield power-up that overlaps the player's start position. *)
Definition overlapping_powerup : PowerUp.t :=
  PowerUp.mk 1 PowerUp.shield (Rect.mk 470 490 POWERUP_SIZE POWERUP_SIZE) 150.

(** A session in which the player, without shield or invincibility,
    overlaps one enemy and one shield power-up. *)
Definition late_pickup_session : Game.world :=
  Game.mkWorld
    (Game.set_powerups [overlapping_powerup]
       (Game.set_enemies [overlapping_enemy] (Game.game (session 0 0))))
    (Some 0) 2.

(** The shape every world of a running game has: the player has its
    size and lies inside the field, no live entity is below the bottom edge,
    and the live entities are distinct objects. *)
Definition well_formed (w : Game.world) : Prop :=
  Player.size (Game.player (Game.game w)) = PLAYER_SIZE /\
  in_field (Game.player (Game.game w)) /\
  above_bottom w /\
  distinct w.

(** An event that the handler of the given state ignores. *)
Definition ignored_in (s : State) (e : Event.t) : Prop :=
  match e with
  | Event.QUIT => False
  | Event.OTHER => True
  | Event.KEYDOWN k =>
      match s with
      | S_MENU => k <> Event.K_RETURN /\ k <> Event.K_KP_ENTER /\
                  k <> Event.K_ESCAPE /\ k <> Event.K_q
      | S_PLAY => k <> Event.K_p /\ k <> Event.K_ESCAPE /\ k <> Event.K_SPACE
      | S_PAUSE => k <> Event.K_p /\ k <> Event.K_ESCAPE /\ k <> Event.K_q
      | S_GAMEOVER => k <> Event.K_r /\ k <> Event.K_q /\ k <> Event.K_ESCAPE
      end
  end.

(** The key pressed is one of the two that pause and resume. *)
Definition pause_key (i : Event.input) : Prop :=
  Event.event i = Event.KEYDOWN Event.K_p \/
  Event.event i = Event.KEYDOWN Event.K_ESCAPE.

(** Frames of the examples: P pressed at clock time 105, nothing at 150, P
    pressed again at 200. *)
Definition frame_pause : Game.frame :=
  Game.mkFrame 16 [Event.mkInput (Event.KEYDOWN Event.K_p) 105 8]
               105 no_keys quiet_env.

Definition frame_nothing : Game.frame :=
  Game.mkFrame 16 [] 150 no_keys quiet_env.

Definition frame_resume : Game.frame :=
  Game.mkFrame 16 [Event.mkInput (Event.KEYDOWN Event.K_p) 200 8]
               200 no_keys quiet_env.

(** A session about to end: score 85.7, best score 50, an enemy on the
    unprotected player. *)
Definition doomed_session : Game.world :=
  Game.mkWorld
    (Game.set_enemies [overlapping_enemy] (Game.game (session (857 # 10) 50)))
    (Some 50) 1.


(** * Properties *)

(** ** Sanity checks of the embedding *)

Example py_int_truncates_toward_zero :
  py_int (37 # 10) = 3 /\ py_int (-37 # 10) = -3 /\ py_int (4 # 1) = 4.
Proof. repeat split. Qed.

Example hypot_values :
  (hypot 1 0 == 1)%Q /\ (hypot 0 (-1) == 1)%Q /\
  hypot 1 1 = (6369051672525773 # 4503599627370496)%Q /\
  hypot (-1) 1 = hypot 1 1.
Proof. repeat split. Qed.

Example player_start_position :
  Player.rect (Player.start Player.init) = Rect.mk 462 488 36 36.
Proof. reflexivity. Qed.

Example clamp_values :
  (clamp (-3) 0 1 == 0)%Q /\ (clamp (1 # 2) 0 1 == 1 # 2)%Q /\
  (clamp 7 0 1 == 1)%Q.
Proof. repeat split. Qed.

Example enemy_bounces_and_leaves :
  let e := Enemy.mk 0 ENEMY_SIZE (Rect.mk 1 539 ENEMY_SIZE ENEMY_SIZE) 200 (-60) in
  Rect.x (Enemy.rect (fst (Enemy.update (1 # 20) e))) = -2 /\
  Enemy.drift (fst (Enemy.update (1 # 20) e)) = 60%Q /\
  snd (Enemy.update (1 # 20) e) = false.
Proof. repeat split. Qed.

(** ** Comparisons *)

Lemma Qltb_true_iff (a b : Q) : Qltb a b = true <-> (a < b)%Q.
Proof.
  unfold Qltb. rewrite Qlt_alt.
  destruct (a ?= b)%Q; split; intros H; try reflexivity; discriminate H.
Qed.

Lemma Qltb_false_iff (a b : Q) : Qltb a b = false <-> (b <= a)%Q.
Proof.
  split; intros H.
  - apply Qnot_lt_le. intros Hlt. apply Qltb_true_iff in Hlt. congruence.
  - destruct (Qltb a b) eqn:E; [|reflexivity].
    apply Qltb_true_iff in E. exfalso. exact (Qlt_not_le _ _ E H).
Qed.

Lemma Qgeb_true_iff (a b : Q) : Qgeb a b = true <-> (b <= a)%Q.
Proof. unfold Qgeb. apply Qle_bool_iff. Qed.

Lemma Qgeb_false_iff (a b : Q) : Qgeb a b = false <-> (a < b)%Q.
Proof.
  split; intros H.
  - apply Qnot_le_lt. intros Hle. apply Qgeb_true_iff in Hle. congruence.
  - destruct (Qgeb a b) eqn:E; [|reflexivity].
    apply Qgeb_true_iff in E. exfalso. exact (Qlt_not_le _ _ H E).
Qed.

(** ** Player.hit *)

Lemma hit_when_invincible (now : Q) (p : Player.t) :
  Qltb now (Player.invincible_until p) = true ->
  Player.hit now p = (false, p).
Proof. intros H. unfold Player.hit. rewrite H. reflexivity. Qed.

Lemma hit_with_shield (now : Q) (p : Player.t) :
  Qltb now (Player.invincible_until p) = false ->
  Player.has_shield p = true ->
  Player.hit now p =
  (false,
   Player.set_invincible_until (now + INVINCIBLE_AFTER_HIT)
     (Player.set_has_shield false p)).
Proof. intros H1 H2. unfold Player.hit. rewrite H1, H2. reflexivity. Qed.

Lemma hit_unprotected (now : Q) (p : Player.t) :
  Qltb now (Player.invincible_until p) = false ->
  Player.has_shield p = false ->
  Player.hit now p = (true, p).
Proof. intros H1 H2. unfold Player.hit. rewrite H1, H2. reflexivity. Qed.

(** C5.  When [now < invincible_until], [hit(now)] is not lethal and its
    outcome is absorbed-by-invincibility, whether or not a shield is held,
    and the shield flag is left as it was. *)
Theorem hit_checks_invincibility_first (now : Q) (p : Player.t) :
  (now < Player.invincible_until p)%Q ->
  fst (Player.hit now p) = false /\
  hit_outcome now p = absorbed_by_invincibility /\
  Player.has_shield (snd (Player.hit now p)) = Player.has_shield p.
Proof.
  intros H. apply Qltb_true_iff in H.
  unfold hit_outcome. rewrite (hit_when_invincible _ _ H). cbn.
  destruct (Player.has_shield p); auto.
Qed.

Lemma hit_checks_invincibility_first_witness :
  Player.has_shield shielded_invincible = true /\
  fst (Player.hit 5 shielded_invincible) = false /\
  hit_outcome 5 shielded_invincible = absorbed_by_invincibility /\
  Player.has_shield (snd (Player.hit 5 shielded_invincible)) = true.
Proof.
  split; [reflexivity|].
  apply (hit_checks_invincibility_first 5 shielded_invincible).
  reflexivity.
Defined.

(** C10.  When [now < invincible_until], [hit(now)] changes nothing: the
    player after the call is the player before it, field by field. *)
Theorem hit_invincible_no_side_effect (now : Q) (p : Player.t) :
  (now < Player.invincible_until p)%Q ->
  let p' := snd (Player.hit now p) in
  p' = p /\
  Player.has_shield p' = Player.has_shield p /\
  Player.invincible_until p' = Player.invincible_until p /\
  Player.dash_until p' = Player.dash_until p /\
  Player.dash_cd_until p' = Player.dash_cd_until p /\
  Player.rect p' = Player.rect p /\
  Player.size p' = Player.size p /\
  Player.speed p' = Player.speed p.
Proof.
  intros H p'. subst p'. apply Qltb_true_iff in H.
  rewrite (hit_when_invincible _ _ H). cbn. repeat split.
Qed.

Lemma hit_invincible_no_side_effect_witness :
  snd (Player.hit 5 shielded_invincible) = shielded_invincible.
Proof.
  apply (hit_invincible_no_side_effect 5 shielded_invincible).
  reflexivity.
Defined.



(** ** Player.try_dash *)

Lemma try_dash_ready (now : Q) (p : Player.t) :
  Qgeb now (Player.dash_cd_until p) = true ->
  Player.try_dash now p =
  (true,
   Player.set_invincible_until
     (py_max (Player.invincible_until p) (now + DASH_TIME * (9 # 10)))
     (Player.set_dash_cd_until (now + DASH_COOLDOWN)
        (Player.set_dash_until (now + DASH_TIME) p))).
Proof. intros H. unfold Player.try_dash. rewrite H. reflexivity. Qed.

Lemma try_dash_cooling (now : Q) (p : Player.t) :
  Qgeb now (Player.dash_cd_until p) = false ->
  Player.try_dash now p = (false, p).
Proof. intros H. unfold Player.try_dash. rewrite H. reflexivity. Qed.



(** ** Game.difficulty *)

(** Case analysis on every float comparison in the goal. *)
Ltac no_comparison a :=
  lazymatch a with
  | context [Qltb _ _] => fail
  | context [Qgeb _ _] => fail
  | _ => idtac
  end.

Ltac Qcases :=
  repeat match goal with
  | |- context [Qltb ?a ?b] =>
      no_comparison a; no_comparison b;
      let E := fresh "E" in
      destruct (Qltb a b) eqn:E;
      [apply Qltb_true_iff in E | apply Qltb_false_iff in E]
  | |- context [Qgeb ?a ?b] =>
      no_comparison a; no_comparison b;
      let E := fresh "E" in
      destruct (Qgeb a b) eqn:E;
      [apply Qgeb_true_iff in E | apply Qgeb_false_iff in E]
  end.

Lemma clamp_unit_range (v : Q) : (0 <= clamp v 0 1 <= 1)%Q.
Proof. unfold clamp, py_max, py_min. Qcases; lra. Qed.

Lemma clamp_unit_mono (v v' : Q) :
  (v <= v')%Q -> (clamp v 0 1 <= clamp v' 0 1)%Q.
Proof. intros H. unfold clamp, py_max, py_min. Qcases; lra. Qed.

Lemma clamp_unit_low (v : Q) : (v <= 0)%Q -> (clamp v 0 1 == 0)%Q.
Proof. intros H. unfold clamp, py_max, py_min. Qcases; lra. Qed.

Lemma clamp_unit_high (v : Q) : (1 <= v)%Q -> (clamp v 0 1 == 1)%Q.
Proof. intros H. unfold clamp, py_max, py_min. Qcases; lra. Qed.

Lemma clamp_matches_ref (v : Q) : (clamp v 0 1 == clamp_ref v 0 1)%Q.
Proof. unfold clamp, clamp_ref, py_max, py_min. Qcases; lra. Qed.

Lemma accel_fraction_mono (t t' : Q) :
  (t <= t')%Q -> (t / SPAWN_ACCEL_TIME <= t' / SPAWN_ACCEL_TIME)%Q.
Proof.
  intros H. unfold SPAWN_ACCEL_TIME, Qdiv.
  change (/ (60 # 1))%Q with (1 # 60)%Q. lra.
Qed.

Lemma accel_fraction_full (t : Q) :
  (SPAWN_ACCEL_TIME <= t)%Q -> (1 <= t / SPAWN_ACCEL_TIME)%Q.
Proof.
  unfold SPAWN_ACCEL_TIME, Qdiv. intros H.
  change (/ (60 # 1))%Q with (1 # 60)%Q. lra.
Qed.



(** ** Game.game_over and the best score *)

Lemma game_over_state (t : Q) (ok : bool) (w : Game.world) :
  Game.state (Game.game (Game.game_over t ok w)) = S_GAMEOVER.
Proof.
  unfold Game.game_over. cbn.
  destruct (Game.high_score (Game.game w) <? py_int (Game.score (Game.game w)));
    reflexivity.
Qed.



(** ** Truncation *)

Lemma py_int_nonneg (q : Q) :
  (0 <= q)%Q -> 0 <= py_int q /\ (inject_Z (py_int q) <= q)%Q.
Proof.
  destruct q as [n d]. unfold py_int, Qle, inject_Z. cbn. intros H.
  assert (Hn : 0 <= n) by lia.
  rewrite Z.quot_div_nonneg by lia.
  split.
  - apply Z.div_pos; lia.
  - pose proof (Z.mul_div_le n (Z.pos d)). lia.
Qed.

Lemma py_int_abs_le (q : Q) :
  (inject_Z (Z.abs (py_int q)) <= Qabs q)%Q.
Proof.
  destruct q as [n d].
  assert (H : Z.abs (n ÷ Z.pos d) * Z.pos d <= Z.abs n).
  { rewrite <- Z.quot_abs by lia.
    rewrite Z.quot_div_nonneg by lia.
    pose proof (Z.mul_div_le (Z.abs n) (Z.abs (Z.pos d))). lia. }
  unfold py_int, Qle, Qabs, inject_Z. cbn [Qnum Qden]. lia.
Qed.

Lemma py_int_square_le (q : Q) :
  (inject_Z (py_int q * py_int q) <= q * q)%Q.
Proof.
  pose proof (py_int_abs_le q) as H.
  assert (H0 : (0 <= inject_Z (Z.abs (py_int q)))%Q).
  { unfold Qle, inject_Z. cbn. lia. }
  rewrite <- Z.abs_square.
  rewrite <- (Qabs_pos (q * q)) by nra.
  rewrite Qabs_Qmult, inject_Z_mult. nra.
Qed.

(** ** Enemy.update over many ticks *)

Lemma enemy_update_speed (dt : Q) (e : Enemy.t) :
  Enemy.speed (fst (Enemy.update dt e)) = Enemy.speed e.
Proof. reflexivity. Qed.

Lemma enemy_update_y (dt : Q) (e : Enemy.t) :
  Rect.y (Enemy.rect (fst (Enemy.update dt e))) =
  Rect.y (Enemy.rect e) + py_int (Enemy.speed e * dt).
Proof. reflexivity. Qed.

Lemma enemy_after_y (dts : list Q) (e : Enemy.t) :
  Rect.y (Enemy.rect (enemy_after dts e)) =
  Rect.y (Enemy.rect e) + pixel_steps (Enemy.speed e) dts.
Proof.
  revert e. induction dts as [|dt dts IH]; intros e.
  - cbn. lia.
  - change (enemy_after (dt :: dts) e)
      with (enemy_after dts (fst (Enemy.update dt e))).
    rewrite IH, enemy_update_speed, enemy_update_y.
    change (pixel_steps (Enemy.speed e) (dt :: dts))
      with (py_int (Enemy.speed e * dt) + pixel_steps (Enemy.speed e) dts).
    lia.
Qed.

Lemma pixel_steps_bounds (spd : Q) (dts : list Q) :
  (0 <= spd)%Q ->
  Forall (fun dt => (0 <= dt)%Q) dts ->
  0 <= pixel_steps spd dts /\
  (inject_Z (pixel_steps spd dts) <= spd * total_time dts)%Q.
Proof.
  intros Hs H. induction H as [|dt dts Hdt _ IH];
    cbn [pixel_steps total_time fold_right].
  - split; [lia|]. change (inject_Z 0) with 0%Q. lra.
  - fold (pixel_steps spd dts). fold (total_time dts).
    destruct IH as [IH1 IH2].
    destruct (py_int_nonneg (spd * dt)) as [H1 H2]; [nra|].
    split; [lia|]. rewrite inject_Z_plus. lra.
Qed.

Lemma pixel_steps_exact (spd : Q) (dts : list Q) :
  Forall (fun dt => (inject_Z (py_int (spd * dt)) == spd * dt)%Q) dts ->
  (inject_Z (pixel_steps spd dts) == spd * total_time dts)%Q.
Proof.
  intros H. induction H as [|dt dts Hdt _ IH];
    cbn [pixel_steps total_time fold_right].
  - change (inject_Z 0) with 0%Q. lra.
  - fold (pixel_steps spd dts). fold (total_time dts).
    rewrite inject_Z_plus. lra.
Qed.




(** ** Player.update and diagonal movement *)

Lemma direction_range (keys : Keys) :
  let '(vx, vy) := Player.direction keys in
  (vx = -1 \/ vx = 0 \/ vx = 1) /\ (vy = -1 \/ vy = 0 \/ vy = 1).
Proof.
  unfold Player.direction.
  destruct (K_a keys || K_LEFT keys), (K_d keys || K_RIGHT keys),
    (K_w keys || K_UP keys), (K_s keys || K_DOWN keys); cbn; lia.
Qed.

(** After normalisation the direction is at most a unit vector. *)
Lemma normalize_at_most_unit (keys : Keys) :
  let '(nx, ny) := Player.normalize (Player.direction keys) in
  (nx * nx + ny * ny <= 1)%Q.
Proof.
  pose proof (direction_range keys) as H.
  destruct (Player.direction keys) as [vx vy].
  destruct H as [[-> | [-> | ->]] [-> | [-> | ->]]];
    vm_compute; discriminate.
Qed.

Lemma clampZ_shrinks (x d hi : Z) :
  0 <= x <= hi ->
  (clampZ (x + d) 0 hi - x) * (clampZ (x + d) 0 hi - x) <= d * d.
Proof. unfold clampZ. intros H. nia. Qed.


(** After normalisation a direction that is not zero has unit length, up to
    the rounding of [hypot]. *)
Lemma normalize_nearly_unit (keys : Keys) :
  Player.direction keys <> (0, 0) ->
  let '(nx, ny) := Player.normalize (Player.direction keys) in
  (1 - (1 # 1000000000000000) <= nx * nx + ny * ny)%Q.
Proof.
  pose proof (direction_range keys) as H.
  destruct (Player.direction keys) as [vx vy].
  destruct H as [[-> | [-> | ->]] [-> | [-> | ->]]]; intros Hnz;
    try (exfalso; apply Hnz; reflexivity);
    vm_compute; discriminate.
Qed.



(** ** list.remove inside the collision loops never raises *)

Section ListRemoveFacts.
Context {A : Type} (oid : A -> nat).

Lemma occurrences_cons (i : nat) (a : A) (l : list A) :
  occurrences oid i (a :: l) =
  ((if Nat.eqb (oid a) i then 1 else 0) + occurrences oid i l)%nat.
Proof.
  unfold occurrences. cbn [filter].
  destruct (Nat.eqb (oid a) i); reflexivity.
Qed.

Lemma list_remove_present (o : A) (l : list A) :
  (0 < occurrences oid (oid o) l)%nat ->
  exists l',
    list_remove oid o l = Some l' /\
    forall i, occurrences oid i l =
              ((if Nat.eqb (oid o) i then 1 else 0) + occurrences oid i l')%nat.
Proof.
  induction l as [|a l IH]; intros H.
  - cbn in H. lia.
  - rewrite occurrences_cons in H. cbn [list_remove].
    destruct (Nat.eqb (oid a) (oid o)) eqn:E.
    + exists l. split; [reflexivity|]. intros i.
      rewrite occurrences_cons. apply Nat.eqb_eq in E. rewrite E. reflexivity.
    + destruct (IH H) as (r & Hr & Hocc). rewrite Hr.
      exists (a :: r). split; [reflexivity|]. intros i.
      rewrite !occurrences_cons, (Hocc i). lia.
Qed.

Lemma list_remove_length (o : A) (l l' : list A) :
  list_remove oid o l = Some l' -> length l = S (length l').
Proof.
  revert l'. induction l as [|a l IH]; intros l' H; cbn in H.
  - discriminate.
  - destruct (Nat.eqb (oid a) (oid o)).
    + injection H as <-. reflexivity.
    + destruct (list_remove oid o l) as [r|]; [|discriminate].
      injection H as <-. cbn. rewrite (IH r eq_refl). reflexivity.
Qed.

Lemma covered_refl (l : list A) : covered oid l l.
Proof. intros i. lia. Qed.

Lemma covered_tail (a : A) (snap live : list A) :
  covered oid (a :: snap) live -> covered oid snap live.
Proof.
  intros H i. specialize (H i). rewrite occurrences_cons in H. lia.
Qed.

Lemma covered_remove (a : A) (snap live : list A) :
  covered oid (a :: snap) live ->
  exists l',
    list_remove oid a live = Some l' /\
    covered oid snap l' /\
    forall i, occurrences oid i live =
              ((if Nat.eqb (oid a) i then 1 else 0) + occurrences oid i l')%nat.
Proof.
  intros H.
  destruct (list_remove_present a live) as (l' & Hl & Hocc).
  - specialize (H (oid a)). rewrite occurrences_cons, Nat.eqb_refl in H. lia.
  - exists l'. split; [exact Hl|]. split; [|exact Hocc]. intros i.
    specialize (H i). rewrite occurrences_cons, (Hocc i) in H.
    destruct (Nat.eqb (oid a) i); lia.
Qed.
End ListRemoveFacts.

(** ** The collision loops *)

Lemma game_over_frame (t : Q) (ok : bool) (w : Game.world) :
  let w' := Game.game_over t ok w in
  Game.enemies (Game.game w') = Game.enemies (Game.game w) /\
  Game.powerups (Game.game w') = Game.powerups (Game.game w) /\
  Game.player (Game.game w') = Game.player (Game.game w) /\
  Game.start_time (Game.game w') = Game.start_time (Game.game w) /\
  Game.score (Game.game w') = Game.score (Game.game w).
Proof.
  unfold Game.game_over. cbn.
  destruct (Game.high_score (Game.game w) <? py_int (Game.score (Game.game w)));
    cbn; repeat split.
Qed.

(** The enemy loop runs to completion, keeps the clock origin, never adds
    an enemy and never leaves the game-over state. *)
Lemma collide_enemies_runs (now : Q) (ev : Game.env) :
  forall (snap : list Enemy.t) (w : Game.world),
    covered Enemy.oid snap (Game.enemies (Game.game w)) ->
    exists w',
      Game.collide_enemies now ev snap w = Some w' /\
      Game.start_time (Game.game w') = Game.start_time (Game.game w) /\
      (length (Game.enemies (Game.game w'))
       <= length (Game.enemies (Game.game w)))%nat /\
      (Game.state (Game.game w) = S_GAMEOVER ->
       Game.state (Game.game w') = S_GAMEOVER).
Proof.
  induction snap as [|e snap IH]; intros w Hc.
  - exists w. cbn. repeat split; auto.
  - cbn [Game.collide_enemies].
    destruct (Rect.colliderect _ _).
    + destruct (Player.hit now (Game.player (Game.game w))) as [is_lethal p].
      destruct is_lethal.
      * set (w1 := Game.with_game (Game.set_player p) w).
        destruct (game_over_frame (Game.t_over ev) (Game.io_ok ev) w1)
          as (He & _ & _ & Hst & _).
        destruct (IH (Game.game_over (Game.t_over ev) (Game.io_ok ev) w1))
          as (w' & Hw' & Hs' & Hl' & Hg').
        { rewrite He. apply covered_tail with (a := e). exact Hc. }
        exists w'. split; [exact Hw'|].
        rewrite Hs', Hst. rewrite He in Hl'.
        split; [reflexivity|]. split; [exact Hl'|].
        intros _. apply Hg'. apply game_over_state.
      * cbn [Game.with_game Game.game Game.set_player Game.enemies].
        destruct (covered_remove _ _ _ _ Hc) as (l & Hl & Hcl & _).
        rewrite Hl.
        destruct (IH (Game.with_game (Game.set_enemies l)
                        (Game.with_game (Game.set_player p) w)))
          as (w' & Hw' & Hs' & Hl' & Hg').
        { exact Hcl. }
        exists w'. split; [exact Hw'|].
        split; [exact Hs'|]. split.
        -- cbn in Hl'. rewrite (list_remove_length _ _ _ _ Hl). lia.
        -- exact Hg'.
    + destruct (IH w) as (w' & Hw' & Hrest).
      { apply covered_tail with (a := e). exact Hc. }
      exists w'. split; [exact Hw'|exact Hrest].
Qed.

(** The power-up loop runs to completion and touches neither the enemies,
    nor the clock origin, nor the session state. *)
Lemma collide_powerups_runs :
  forall (snap : list PowerUp.t) (w : Game.world),
    covered PowerUp.oid snap (Game.powerups (Game.game w)) ->
    exists w',
      Game.collide_powerups snap w = Some w' /\
      Game.start_time (Game.game w') = Game.start_time (Game.game w) /\
      Game.enemies (Game.game w') = Game.enemies (Game.game w) /\
      Game.state (Game.game w') = Game.state (Game.game w).
Proof.
  induction snap as [|p snap IH]; intros w Hc.
  - exists w. cbn. repeat split.
  - cbn [Game.collide_powerups].
    destruct (Rect.colliderect _ _).
    + destruct (PowerUp.kind p).
      cbn [Game.with_game Game.game Game.set_player Game.powerups].
      destruct (covered_remove _ _ _ _ Hc) as (l & Hl & Hcl & _).
      rewrite Hl.
      match goal with
      | |- context [Game.collide_powerups snap ?w1] =>
          destruct (IH w1) as (w' & Hw' & Hs' & He' & Hst'); [exact Hcl|]
      end.
      exists w'. split; [exact Hw'|].
      rewrite Hs', He', Hst'. repeat split.
    + destruct (IH w) as (w' & Hw' & Hrest).
      { apply covered_tail with (a := p). exact Hc. }
      exists w'. split; [exact Hw'|exact Hrest].
Qed.

(** [handle_collisions] is total. *)
Lemma handle_collisions_runs (now : Q) (ev : Game.env) (w : Game.world) :
  exists w',
    Game.handle_collisions now ev w = Some w' /\
    Game.start_time (Game.game w') = Game.start_time (Game.game w) /\
    (length (Game.enemies (Game.game w'))
     <= length (Game.enemies (Game.game w)))%nat /\
    (Game.state (Game.game w) = S_GAMEOVER ->
     Game.state (Game.game w') = S_GAMEOVER).
Proof.
  unfold Game.handle_collisions.
  destruct (collide_enemies_runs now ev _ w (covered_refl _ _))
    as (w1 & H1 & Hs1 & Hl1 & Hg1).
  rewrite H1.
  destruct (collide_powerups_runs _ w1 (covered_refl _ _))
    as (w2 & H2 & Hs2 & He2 & Hst2).
  exists w2. split; [exact H2|].
  rewrite Hs2, He2, Hst2. auto.
Qed.

(** ** Game.update: totality and the score it leaves *)

Lemma update_player_frame (dt now : Q) (keys : Keys) (w : Game.world) :
  let w' := Game.update_player dt now keys w in
  Game.start_time (Game.game w') = Game.start_time (Game.game w) /\
  Game.enemies (Game.game w') = Game.enemies (Game.game w) /\
  Game.state (Game.game w') = Game.state (Game.game w).
Proof.
  unfold Game.update_player.
  destruct (K_SPACE keys || K_LCTRL keys); cbn; repeat split.
Qed.

Lemma update_spawn_frame (now elapsed si es : Q) (ev : Game.env)
      (w : Game.world) :
  let w' := Game.update_spawn now elapsed si es ev w in
  Game.start_time (Game.game w') = Game.start_time (Game.game w) /\
  Game.state (Game.game w') = Game.state (Game.game w).
Proof.
  unfold Game.update_spawn.
  destruct (Qgeb _ si); [|split; reflexivity].
  destruct (Qltb _ _); cbn; split; reflexivity.
Qed.

Lemma update_powerup_timer_frame (elapsed : Q) (ev : Game.env)
      (w : Game.world) :
  let w' := Game.update_powerup_timer elapsed ev w in
  Game.start_time (Game.game w') = Game.start_time (Game.game w) /\
  Game.enemies (Game.game w') = Game.enemies (Game.game w) /\
  Game.state (Game.game w') = Game.state (Game.game w).
Proof.
  unfold Game.update_powerup_timer.
  destruct (Qgeb _ _); cbn; repeat split.
Qed.

Lemma update_entities_frame (dt : Q) (w : Game.world) :
  let w' := Game.update_entities dt w in
  Game.start_time (Game.game w') = Game.start_time (Game.game w) /\
  Game.state (Game.game w') = Game.state (Game.game w).
Proof. cbn. split; reflexivity. Qed.

(** A tick in the playing state returns, keeps the clock origin and leaves
    the score [elapsed * 10 + max(0, live enemies - 4)]. *)
Lemma update_runs (dt now : Q) (keys : Keys) (ev : Game.env) (w : Game.world) :
  Game.state (Game.game w) = S_PLAY ->
  exists w',
    Game.update dt now keys ev w = Some w' /\
    Game.start_time (Game.game w') = Game.start_time (Game.game w) /\
    Game.score (Game.game w') =
    ((now - Game.start_time (Game.game w)) * 10 +
     inject_Z (Z.max 0 (Z.of_nat (length (Game.enemies (Game.game w'))) - 4)))%Q.
Proof.
  intros Hplay. unfold Game.update. rewrite Hplay. cbn [State_eqb].
  destruct (update_player_frame dt now keys w) as (Hp & _).
  set (w1 := Game.update_player dt now keys w) in *.
  rewrite Hp.
  destruct (Game.difficulty _) as [spawn_interval enemy_speed].
  set (elapsed := (now - Game.start_time (Game.game w))%Q).
  destruct (update_spawn_frame now elapsed spawn_interval enemy_speed ev w1)
    as (Hsp & _).
  set (w2 := Game.update_spawn now elapsed spawn_interval enemy_speed ev w1) in *.
  destruct (update_powerup_timer_frame elapsed ev w2) as (Hpt & _).
  set (w3 := Game.update_powerup_timer elapsed ev w2) in *.
  destruct (update_entities_frame dt w3) as (Hen & _).
  set (w4 := Game.update_entities dt w3) in *.
  destruct (handle_collisions_runs now ev w4) as (w5 & H5 & Hs5 & _).
  rewrite H5. eexists. split; [reflexivity|].
  cbn. rewrite Hs5, Hen, Hpt, Hsp, Hp. split; reflexivity.
Qed.

(** ** The score across ticks *)




(** ** Collisions with enemies *)

(** A protected player survives the hit, stays where it is, and is
    invincible afterwards. *)
Lemma hit_protected (now : Q) (p : Player.t) :
  protected now p ->
  exists p',
    Player.hit now p = (false, p') /\
    Player.rect p' = Player.rect p /\
    Qltb now (Player.invincible_until p') = true.
Proof.
  intros Hp.
  destruct (Qltb now (Player.invincible_until p)) eqn:Hi.
  - exists p. rewrite (hit_when_invincible _ _ Hi). auto.
  - destruct Hp as [Hp | Hs]; [congruence|].
    rewrite (hit_with_shield _ _ Hi Hs).
    eexists. split; [reflexivity|]. split; [reflexivity|].
    cbn. apply Qltb_true_iff. unfold INVINCIBLE_AFTER_HIT. lra.
Qed.

Lemma overlapping_cons (r : Rect.t) (e : Enemy.t) (es : list Enemy.t) :
  overlapping r (e :: es) =
  if Rect.colliderect r (Enemy.rect e)
  then e :: overlapping r es else overlapping r es.
Proof. reflexivity. Qed.

(** With a protected player the enemy loop removes every overlapping enemy,
    whether the hit was absorbed by the shield or by invincibility, and the
    session state is left alone. *)
Lemma collide_enemies_protected (now : Q) (ev : Game.env) (r : Rect.t) :
  forall (snap : list Enemy.t) (w : Game.world),
    covered Enemy.oid snap (Game.enemies (Game.game w)) ->
    Player.rect (Game.player (Game.game w)) = r ->
    protected now (Game.player (Game.game w)) ->
    exists w',
      Game.collide_enemies now ev snap w = Some w' /\
      Game.state (Game.game w') = Game.state (Game.game w) /\
      Game.powerups (Game.game w') = Game.powerups (Game.game w) /\
      forall i,
        (occurrences Enemy.oid i (Game.enemies (Game.game w'))
         + occurrences Enemy.oid i (overlapping r snap)
         = occurrences Enemy.oid i (Game.enemies (Game.game w)))%nat.
Proof.
  induction snap as [|e snap IH]; intros w Hc Hr Hp.
  - exists w. cbn. repeat split. intros i. lia.
  - cbn [Game.collide_enemies]. rewrite overlapping_cons, Hr.
    destruct (Rect.colliderect r (Enemy.rect e)).
    + destruct (hit_protected now _ Hp) as (p' & Hh & Hr' & Hi').
      rewrite Hh.
      cbn [Game.with_game Game.game Game.set_player Game.enemies].
      destruct (covered_remove _ _ _ _ Hc) as (l & Hl & Hcl & Hocc).
      rewrite Hl.
      match goal with
      | |- context [Game.collide_enemies now ev snap ?w1] =>
          destruct (IH w1 Hcl (eq_trans Hr' Hr) (or_introl Hi'))
            as (w' & Hw' & Hst' & Hpu' & Hn')
      end.
      exists w'. split; [exact Hw'|].
      split; [exact Hst'|]. split; [exact Hpu'|]. intros i.
      specialize (Hn' i).
      cbn [Game.with_game Game.game Game.set_enemies Game.enemies] in Hn'.
      rewrite occurrences_cons, (Hocc i). lia.
    + apply (IH w (covered_tail _ _ _ _ Hc) Hr Hp).
Qed.

(** With an unprotected player the first overlapping enemy ends the
    session. *)
Lemma collide_enemies_unprotected (now : Q) (ev : Game.env) :
  forall (snap : list Enemy.t) (w : Game.world),
    covered Enemy.oid snap (Game.enemies (Game.game w)) ->
    ~ protected now (Game.player (Game.game w)) ->
    overlapping (Player.rect (Game.player (Game.game w))) snap <> [] ->
    exists w',
      Game.collide_enemies now ev snap w = Some w' /\
      Game.state (Game.game w') = S_GAMEOVER.
Proof.
  induction snap as [|e snap IH]; intros w Hc Hp Ho.
  - exfalso. apply Ho. reflexivity.
  - cbn [Game.collide_enemies]. rewrite overlapping_cons in Ho.
    destruct (Rect.colliderect _ (Enemy.rect e)).
    + assert (Hi : Qltb now (Player.invincible_until
                               (Game.player (Game.game w))) = false).
      { destruct (Qltb _ _) eqn:E; [|reflexivity].
        exfalso. apply Hp. left. exact E. }
      assert (Hs : Player.has_shield (Game.player (Game.game w)) = false).
      { destruct (Player.has_shield _) eqn:E; [|reflexivity].
        exfalso. apply Hp. right. exact E. }
      rewrite (hit_unprotected _ _ Hi Hs).
      set (w1 := Game.game_over (Game.t_over ev) (Game.io_ok ev)
                   (Game.with_game
                      (Game.set_player (Game.player (Game.game w))) w)).
      assert (Hc1 : covered Enemy.oid snap (Game.enemies (Game.game w1))).
      { subst w1.
        destruct (game_over_frame (Game.t_over ev) (Game.io_ok ev)
                    (Game.with_game
                       (Game.set_player (Game.player (Game.game w))) w))
          as (He & _).
        rewrite He. apply covered_tail with (a := e). exact Hc. }
      destruct (collide_enemies_runs now ev snap w1 Hc1)
        as (w' & Hw' & _ & _ & Hg').
      exists w'. split; [exact Hw'|]. apply Hg', game_over_state.
    + apply (IH w (covered_tail _ _ _ _ Hc) Hp Ho).
Qed.

Lemma occurrences_overlapping (r : Rect.t) (e : Enemy.t) (es : list Enemy.t) :
  In e es ->
  Rect.colliderect r (Enemy.rect e) = true ->
  (0 < occurrences Enemy.oid (Enemy.oid e) (overlapping r es))%nat.
Proof.
  intros Hin Hov. induction es as [|a es IH]; [contradiction|].
  rewrite overlapping_cons. destruct Hin as [-> | Hin].
  - rewrite Hov, occurrences_cons, Nat.eqb_refl. lia.
  - destruct (Rect.colliderect r (Enemy.rect a)).
    + rewrite occurrences_cons. specialize (IH Hin). lia.
    + exact (IH Hin).
Qed.

Lemma occurrences_zero_not_in (e : Enemy.t) (es : list Enemy.t) :
  occurrences Enemy.oid (Enemy.oid e) es = 0%nat -> ~ In e es.
Proof.
  intros H Hin. induction es as [|a es IH]; [contradiction|].
  rewrite occurrences_cons in H. destruct Hin as [-> | Hin].
  - rewrite Nat.eqb_refl in H. lia.
  - apply IH; [lia | exact Hin].
Qed.

(** What [handle_collisions] does for a protected player: the session state
    is kept and every enemy that overlaps the player loses an entry in the
    live list; an enemy whose identity occurs once is gone.  The reason the
    hit was absorbed plays no part. *)
Lemma handle_collisions_protected (now : Q) (ev : Game.env) (w : Game.world) :
  protected now (Game.player (Game.game w)) ->
  exists w',
    Game.handle_collisions now ev w = Some w' /\
    Game.state (Game.game w') = Game.state (Game.game w) /\
    forall e,
      In e (Game.enemies (Game.game w)) ->
      Rect.colliderect (Player.rect (Game.player (Game.game w))) (Enemy.rect e)
      = true ->
      (occurrences Enemy.oid (Enemy.oid e) (Game.enemies (Game.game w'))
       < occurrences Enemy.oid (Enemy.oid e) (Game.enemies (Game.game w)))%nat /\
      (occurrences Enemy.oid (Enemy.oid e) (Game.enemies (Game.game w)) = 1%nat ->
       ~ In e (Game.enemies (Game.game w'))).
Proof.
  intros Hp. unfold Game.handle_collisions.
  destruct (collide_enemies_protected now ev _ _ w (covered_refl _ _) eq_refl Hp)
    as (w1 & H1 & Hst1 & _ & Hocc).
  rewrite H1.
  destruct (collide_powerups_runs _ w1 (covered_refl _ _))
    as (w2 & H2 & _ & He2 & Hst2).
  exists w2. split; [exact H2|]. split; [congruence|].
  intros e Hin Hov. rewrite He2.
  pose proof (occurrences_overlapping _ _ _ Hin Hov) as Hpos.
  specialize (Hocc (Enemy.oid e)).
  split; [lia|].
  intros Hone. apply occurrences_zero_not_in. lia.
Qed.

(** What [handle_collisions] does for an unprotected player that overlaps
    an enemy: the session is over. *)
Lemma handle_collisions_unprotected (now : Q) (ev : Game.env) (w : Game.world) :
  ~ protected now (Game.player (Game.game w)) ->
  overlapping (Player.rect (Game.player (Game.game w)))
              (Game.enemies (Game.game w)) <> [] ->
  exists w',
    Game.handle_collisions now ev w = Some w' /\
    Game.state (Game.game w') = S_GAMEOVER.
Proof.
  intros Hp Ho. unfold Game.handle_collisions.
  destruct (collide_enemies_unprotected now ev _ w (covered_refl _ _) Hp Ho)
    as (w1 & H1 & Hst1).
  rewrite H1.
  destruct (collide_powerups_runs _ w1 (covered_refl _ _))
    as (w2 & H2 & _ & _ & Hst2).
  exists w2. split; [exact H2|]. congruence.
Qed.

(** C1 at the failing input.  The player dashed at clock time 105 and is
    invincible until 105.162, without a shield; at 105.1 one enemy overlaps
    it.  [hit] is absorbed by invincibility, no shield is consumed, the
    session stays in the playing state, and yet [handle_collisions] removes
    the enemy from the live list. *)
Theorem invincible_overlap_removes_obstacle :
  let p := Game.player (Game.game dash_session) in
  Game.state (Game.game dash_session) = S_PLAY /\
  Game.enemies (Game.game dash_session) = [overlapping_enemy] /\
  Rect.colliderect (Player.rect p) (Enemy.rect overlapping_enemy) = true /\
  Player.has_shield p = false /\
  hit_outcome (1051 # 10) p = absorbed_by_invincibility /\
  exists w',
    Game.handle_collisions (1051 # 10) quiet_env dash_session = Some w' /\
    Game.state (Game.game w') = S_PLAY /\
    Game.player (Game.game w') = p /\
    Game.enemies (Game.game w') = [].
Proof.
  cbv zeta. do 5 (split; [reflexivity|]).
  eexists. split; [vm_compute; reflexivity|].
  repeat split.
Qed.

(** The same through a whole tick: the player presses the dash key at clock
    time 105 while an enemy falls onto it.  The dash makes the player
    invincible, the enemy reaches it in the same tick, and [update] ends in
    the playing state with no shield consumed and the enemy deleted. *)
Lemma dash_tick_removes_obstacle :
  exists w',
    Game.update (16 # 1000) 105 keys_space quiet_env approach_session
    = Some w' /\
    Game.state (Game.game w') = S_PLAY /\
    Game.player (Game.game w') = dashed_player /\
    Player.has_shield dashed_player = false /\
    Game.enemies (Game.game w') = [].
Proof.
  eexists. split; [vm_compute; reflexivity|].
  repeat split.
Qed.

(** * Further properties of the code *)

(** ** clamp *)

(** X1.  With [lo <= hi], [clamp] lands in [[lo, hi]] and leaves a value that
    is already there alone; with [hi < lo] it returns [lo], whatever the
    value.  The same holds on integers. *)
Theorem clamp_bounds (v lo hi : Q) (z zlo zhi : Z) :
  ((lo <= hi)%Q ->
   (lo <= clamp v lo hi <= hi)%Q /\
   ((lo <= v <= hi)%Q -> (clamp v lo hi == v)%Q)) /\
  ((hi < lo)%Q -> clamp v lo hi = lo) /\
  (zlo <= zhi ->
   zlo <= clampZ z zlo zhi <= zhi /\
   (zlo <= z <= zhi -> clampZ z zlo zhi = z)) /\
  (zhi < zlo -> clampZ z zlo zhi = zlo).
Proof.
  split; [|split; [|split]].
  - intros H. split.
    + unfold clamp, py_max, py_min. Qcases; lra.
    + intros Hv. unfold clamp, py_max, py_min. Qcases; lra.
  - intros H. unfold clamp, py_max, py_min.
    destruct (Qltb v hi) eqn:E1.
    + apply Qltb_true_iff in E1.
      destruct (Qltb lo v) eqn:E2; [|reflexivity].
      apply Qltb_true_iff in E2. lra.
    + destruct (Qltb lo hi) eqn:E2; [|reflexivity].
      apply Qltb_true_iff in E2. lra.
  - intros H. unfold clampZ. lia.
  - intros H. unfold clampZ. lia.
Qed.

Lemma clamp_bounds_witness :
  (0 <= clamp 7 0 1 <= 1)%Q /\ clamp (1 # 2) 3 2 = 3%Q /\
  0 <= clampZ 1000 0 924 <= 924 /\ clampZ 5 9 2 = 9.
Proof.
  destruct (clamp_bounds 7 0 1 1000 0 924) as (H1 & _ & H3 & _).
  destruct (clamp_bounds (1 # 2) 3 2 5 9 2) as (_ & H2 & _ & H4).
  split; [apply H1; discriminate|].
  split; [apply H2; reflexivity|].
  split; [apply H3; discriminate|].
  apply H4. reflexivity.
Defined.

(** ** Player.update and the field *)

(** [int(x)] is the floor of a non-negative [x] and the ceiling of a
    negative one; it depends on the value of [x] only. *)
Lemma py_int_floor_ceiling (q : Q) :
  py_int q = if 0 <=? Qnum q then Qfloor q else Qceiling q.
Proof.
  destruct q as [n d]. unfold py_int, Qceiling, Qfloor, Qopp. cbn [Qnum Qden].
  destruct (Z.leb_spec 0 n) as [Hn | Hn].
  - apply Z.quot_div_nonneg; lia.
  - rewrite <- (Z.opp_involutive n) at 1.
    rewrite Z.quot_opp_l by lia.
    rewrite Z.quot_div_nonneg by lia. reflexivity.
Qed.

Lemma py_int_Qeq (q q' : Q) : (q == q')%Q -> py_int q = py_int q'.
Proof.
  intros H. rewrite !py_int_floor_ceiling.
  assert (Hs : (0 <=? Qnum q) = (0 <=? Qnum q')).
  { unfold Qeq in H. destruct (Z.leb_spec 0 (Qnum q)), (Z.leb_spec 0 (Qnum q'));
      try reflexivity; nia. }
  rewrite Hs. destruct (0 <=? Qnum q'); rewrite H; reflexivity.
Qed.

Lemma py_int_opp (q : Q) : py_int (- q) = - py_int q.
Proof.
  destruct q as [n d]. unfold py_int, Qopp. cbn [Qnum Qden].
  apply Z.quot_opp_l. lia.
Qed.

Lemma py_int_at_least (k : Z) (q : Q) :
  0 <= k -> (inject_Z k <= q)%Q -> k <= py_int q.
Proof.
  intros Hk H. rewrite py_int_floor_ceiling.
  assert (Hq : 0 <= Qnum q).
  { unfold Qle, inject_Z in H. cbn in H. nia. }
  apply Z.leb_le in Hq. rewrite Hq.
  rewrite <- (Qfloor_Z k). apply Qfloor_resp_le. exact H.
Qed.

Lemma player_update_stays_in_field_core
        (dt : Q) (keys : Keys) (now : Q) (p : Player.t) :
  Player.size p <= WIDTH ->
  Player.size p <= HEIGHT ->
  in_field (Player.update dt keys now p).
Proof.
  intros Hw Hh. unfold in_field, Player.update.
  destruct (Player.normalize (Player.direction keys)) as [nx ny].
  cbn [Player.rect Player.size Player.set_rect Rect.x Rect.y
       Rect.set_x Rect.set_y].
  unfold clampZ. lia.
Qed.

(** X2.  Whatever the keys, the time step and the position before, after
    [Player.update] the player's rectangle lies inside the field (the
    player being no larger than the field). *)
Theorem player_update_stays_in_field
        (dt : Q) (keys : Keys) (now : Q) (p : Player.t) :
  Player.size p <= WIDTH ->
  Player.size p <= HEIGHT ->
  in_field (Player.update dt keys now p).
Proof. exact (player_update_stays_in_field_core dt keys now p). Qed.

Lemma player_update_stays_in_field_witness :
  in_field (Player.update 1000 keys_right_down 1 mid_player).
Proof.
  apply (player_update_stays_in_field 1000 keys_right_down 1 mid_player);
    discriminate.
Defined.

Lemma normalize_right :
  let n := Player.normalize (1, 0) in (fst n == 1)%Q /\ (snd n == 0)%Q.
Proof. split; reflexivity. Qed.

Lemma normalize_left :
  let n := Player.normalize (-1, 0) in (fst n == -1)%Q /\ (snd n == 0)%Q.
Proof. split; reflexivity. Qed.

Lemma py_int_zero_product (a b c : Q) : (a == 0)%Q -> py_int (a * b * c) = 0.
Proof.
  intros H. rewrite (py_int_Qeq (a * b * c) 0); [reflexivity|].
  rewrite H. ring.
Qed.

(** X3.  Holding a horizontal key for at least the distance to that edge
    pins the player exactly at the edge and does not move it vertically:
    right gives [x = WIDTH - size], left gives [x = 0]. *)
Theorem player_pinned_at_edge (dt : Q) (keys : Keys) (now : Q) (p : Player.t) :
  in_field p ->
  let s := (Player.effective_speed now p * dt)%Q in
  let r := Player.rect p in
  let r' := Player.rect (Player.update dt keys now p) in
  (Player.direction keys = (1, 0) ->
   (inject_Z (WIDTH - Player.size p - Rect.x r) <= s)%Q ->
   Rect.x r' = WIDTH - Player.size p /\ Rect.y r' = Rect.y r) /\
  (Player.direction keys = (-1, 0) ->
   (inject_Z (Rect.x r) <= s)%Q ->
   Rect.x r' = 0 /\ Rect.y r' = Rect.y r).
Proof.
  intros [Hx Hy] s r r'. subst r r'. unfold Player.update. split.
  - intros Hd Hs. rewrite Hd.
    destruct normalize_right as [Hnx Hny].
    destruct (Player.normalize (1, 0)) as [nx ny]. cbn [fst snd] in Hnx, Hny.
    cbn [Player.rect Player.set_rect Rect.x Rect.y Rect.set_x Rect.set_y].
    rewrite (py_int_zero_product _ _ _ Hny).
    assert (Hk : WIDTH - Player.size p - Rect.x (Player.rect p)
                 <= py_int (nx * Player.effective_speed now p * dt)).
    { apply py_int_at_least; [lia|].
      rewrite Hnx. unfold s in Hs. lra. }
    unfold clampZ. lia.
  - intros Hd Hs. rewrite Hd.
    destruct normalize_left as [Hnx Hny].
    destruct (Player.normalize (-1, 0)) as [nx ny]. cbn [fst snd] in Hnx, Hny.
    cbn [Player.rect Player.set_rect Rect.x Rect.y Rect.set_x Rect.set_y].
    rewrite (py_int_zero_product _ _ _ Hny).
    assert (Hk : Rect.x (Player.rect p)
                 <= - py_int (nx * Player.effective_speed now p * dt)).
    { rewrite <- py_int_opp. apply py_int_at_least; [lia|].
      rewrite Hnx. unfold s in Hs. lra. }
    unfold clampZ. lia.
Qed.

Lemma player_pinned_at_edge_witness :
  Rect.x (Player.rect (Player.update 2 keys_right 1 mid_player)) = 924 /\
  Rect.x (Player.rect (Player.update 2 keys_left 1 mid_player)) = 0.
Proof.
  assert (Hf : in_field mid_player) by (vm_compute; intuition discriminate).
  split.
  - destruct (player_pinned_at_edge 2 keys_right 1 mid_player Hf) as [H _].
    apply H; [reflexivity | vm_compute; discriminate].
  - destruct (player_pinned_at_edge 2 keys_left 1 mid_player Hf) as [_ H].
    apply H; [reflexivity | vm_compute; discriminate].
Defined.

(** X4.  Opposite keys cancel: when left and right are both held or both
    released, and likewise up and down, [Player.update] leaves a player that
    is inside the field exactly as it was. *)
Theorem opposite_keys_cancel (dt : Q) (keys : Keys) (now : Q) (p : Player.t) :
  in_field p ->
  K_a keys || K_LEFT keys = K_d keys || K_RIGHT keys ->
  K_w keys || K_UP keys = K_s keys || K_DOWN keys ->
  Player.update dt keys now p = p.
Proof.
  intros [Hx Hy] Hh Hv.
  assert (Hd : Player.direction keys = (0, 0)).
  { unfold Player.direction. rewrite Hh, Hv.
    destruct (K_d keys || K_RIGHT keys), (K_s keys || K_DOWN keys);
      reflexivity. }
  unfold Player.update. rewrite Hd.
  cbn [Player.normalize truthy Z.eqb negb orb].
  rewrite !(py_int_zero_product (inject_Z 0)) by reflexivity.
  destruct p as [sz [x y w h] sp iu hs du dc].
  cbn [Player.rect Player.size Rect.x Rect.y] in Hx, Hy.
  unfold Player.set_rect, Rect.set_x, Rect.set_y.
  cbn [Player.rect Player.size Player.speed Player.invincible_until
       Player.has_shield Player.dash_until Player.dash_cd_until
       Rect.x Rect.y Rect.w Rect.h].
  unfold clampZ. rewrite !Z.add_0_r.
  replace (Z.max 0 (Z.min (WIDTH - sz) x)) with x by lia.
  replace (Z.max 0 (Z.min (HEIGHT - sz) y)) with y by lia.
  reflexivity.
Qed.

Lemma opposite_keys_cancel_witness :
  Player.update (16 # 1000) keys_left_right 1 mid_player = mid_player.
Proof.
  apply (opposite_keys_cancel (16 # 1000) keys_left_right 1 mid_player).
  - vm_compute. intuition discriminate.
  - reflexivity.
  - reflexivity.
Defined.

(** ** Dash, shield and hits together *)

Lemma py_max_bounds (a b : Q) : (a <= py_max a b)%Q /\ (b <= py_max a b)%Q.
Proof. unfold py_max. Qcases; lra. Qed.

Lemma py_max_either (a b : Q) : py_max a b = a \/ py_max a b = b.
Proof. unfold py_max. destruct (Qltb a b); auto. Qed.





(** X7.  A shield is used up by one hit: after the hit that consumed it, a
    hit that comes once the grace time [INVINCIBLE_AFTER_HIT] is over is
    lethal. *)
Theorem shield_absorbs_one_hit_only (now now' : Q) (p : Player.t) :
  Player.has_shield p = true ->
  (Player.invincible_until p <= now)%Q ->
  (now + INVINCIBLE_AFTER_HIT <= now')%Q ->
  let p1 := snd (Player.hit now p) in
  fst (Player.hit now p) = false /\
  Player.hit now' p1 = (true, p1).
Proof.
  intros Hs Hi Hlate p1. subst p1.
  apply Qltb_false_iff in Hi. rewrite (hit_with_shield _ _ Hi Hs).
  cbn [fst snd]. split; [reflexivity|].
  apply hit_unprotected; [|reflexivity].
  apply Qltb_false_iff. exact Hlate.
Qed.

Lemma shield_absorbs_one_hit_only_witness :
  fst (Player.hit 3 shielded) = false /\
  fst (Player.hit 4 (snd (Player.hit 3 shielded))) = true.
Proof.
  assert (Hi : (Player.invincible_until shielded <= 3)%Q) by discriminate.
  assert (Hl : (3 + INVINCIBLE_AFTER_HIT <= 4)%Q) by discriminate.
  destruct (shield_absorbs_one_hit_only 3 4 shielded eq_refl Hi Hl) as [H1 H2].
  split; [exact H1|]. rewrite H2. reflexivity.
Defined.

(** ** Range of the difficulty curve *)

Lemma difficulty_range_core (t : Q) :
  (SPAWN_MIN_INTERVAL <= fst (Game.difficulty t) <= SPAWN_BASE_INTERVAL)%Q /\
  (ENEMY_SPEED_BASE <= snd (Game.difficulty t) <= ENEMY_SPEED_MAX)%Q /\
  ((t <= 0)%Q ->
   (fst (Game.difficulty t) == SPAWN_BASE_INTERVAL)%Q /\
   (snd (Game.difficulty t) == ENEMY_SPEED_BASE)%Q).
Proof.
  unfold Game.difficulty. cbn [fst snd].
  pose proof (clamp_unit_range (t / SPAWN_ACCEL_TIME)) as Hk.
  unfold SPAWN_MIN_INTERVAL, SPAWN_BASE_INTERVAL, ENEMY_SPEED_BASE,
    ENEMY_SPEED_MAX.
  split; [lra|]. split; [lra|].
  intros Ht.
  assert (H0 : (clamp (t / SPAWN_ACCEL_TIME) 0 1 == 0)%Q).
  { apply clamp_unit_low. unfold SPAWN_ACCEL_TIME, Qdiv.
    change (/ (60 # 1))%Q with (1 # 60)%Q. lra. }
  split; rewrite H0; reflexivity.
Qed.

(** X8.  For every [t], negative ones included, the spawn interval lies
    between [SPAWN_MIN_INTERVAL] and [SPAWN_BASE_INTERVAL] and the enemy
    speed between [ENEMY_SPEED_BASE] and [ENEMY_SPEED_MAX]; for [t <= 0]
    the curve gives the base pair. *)
Theorem difficulty_range (t : Q) :
  (SPAWN_MIN_INTERVAL <= fst (Game.difficulty t) <= SPAWN_BASE_INTERVAL)%Q /\
  (ENEMY_SPEED_BASE <= snd (Game.difficulty t) <= ENEMY_SPEED_MAX)%Q /\
  ((t <= 0)%Q ->
   (fst (Game.difficulty t) == SPAWN_BASE_INTERVAL)%Q /\
   (snd (Game.difficulty t) == ENEMY_SPEED_BASE)%Q).
Proof. exact (difficulty_range_core t). Qed.

Lemma difficulty_range_witness :
  (fst (Game.difficulty (-5)) == SPAWN_BASE_INTERVAL)%Q /\
  (snd (Game.difficulty (-5)) == ENEMY_SPEED_BASE)%Q.
Proof.
  destruct (difficulty_range (-5)) as (_ & _ & H).
  apply H. discriminate.
Defined.

(** ** Enemy drift *)

Lemma py_int_small (q : Q) : (Qabs q < 1)%Q -> py_int q = 0.
Proof.
  intros H. pose proof (py_int_abs_le q) as Ha.
  assert (Hlt : (inject_Z (Z.abs (py_int q)) < inject_Z 1)%Q).
  { change (inject_Z 1) with 1%Q. lra. }
  rewrite <- Zlt_Qlt in Hlt. lia.
Qed.

Lemma enemy_update_drift_size (dt : Q) (e : Enemy.t) :
  (Qabs (Enemy.drift (fst (Enemy.update dt e))) == Qabs (Enemy.drift e))%Q.
Proof.
  unfold Enemy.update. cbn [fst Enemy.drift].
  destruct (_ || _); [apply Qabs_opp | reflexivity].
Qed.



(** ** game_over, the best score and the file *)

Lemma game_over_no_new_best (t : Q) (ok : bool) (w : Game.world) :
  py_int (Game.score (Game.game w)) <= Game.high_score (Game.game w) ->
  Game.high_score (Game.game (Game.game_over t ok w))
  = Game.high_score (Game.game w) /\
  Game.hs_file (Game.game_over t ok w) = Game.hs_file w.
Proof.
  intros H. unfold Game.game_over. cbn.
  destruct (Z.ltb_spec (Game.high_score (Game.game w))
                       (py_int (Game.score (Game.game w)))); [lia|].
  split; reflexivity.
Qed.

(** X10.  After [game_over] the best score is at least the final integer
    score and never below the previous best; a second [game_over] on the
    result changes neither the best score nor the file, so the several
    lethal hits of one tick write the file at most once. *)
Theorem game_over_twice (t t' : Q) (ok ok' : bool) (w : Game.world) :
  let w1 := Game.game_over t ok w in
  let w2 := Game.game_over t' ok' w1 in
  py_int (Game.score (Game.game w)) <= Game.high_score (Game.game w1) /\
  Game.high_score (Game.game w) <= Game.high_score (Game.game w1) /\
  Game.high_score (Game.game w2) = Game.high_score (Game.game w1) /\
  Game.hs_file w2 = Game.hs_file w1.
Proof.
  cbv zeta.
  assert (H1 : py_int (Game.score (Game.game w))
               <= Game.high_score (Game.game (Game.game_over t ok w)) /\
               Game.high_score (Game.game w)
               <= Game.high_score (Game.game (Game.game_over t ok w))).
  { unfold Game.game_over. cbn.
    destruct (Z.ltb_spec (Game.high_score (Game.game w))
                         (py_int (Game.score (Game.game w)))); cbn; lia. }
  destruct H1 as [H1 H2]. split; [exact H1|]. split; [exact H2|].
  destruct (game_over_frame t ok w) as (_ & _ & _ & _ & Hsc).
  cbv zeta in Hsc.
  apply game_over_no_new_best. rewrite Hsc. exact H1.
Qed.

(** ** Deleting entries from a list *)

Section Thinned.
Context {A : Type}.

Lemma thinned_refl (l : list A) : thinned l l.
Proof. induction l; constructor; assumption. Qed.

Lemma thinned_trans (l1 l2 l3 : list A) :
  thinned l1 l2 -> thinned l2 l3 -> thinned l1 l3.
Proof.
  intros H12 H23. revert l1 H12.
  induction H23 as [|a l2 l3 H IH|a l2 l3 H IH]; intros l1 H12.
  - exact H12.
  - inversion H12; subst.
    + constructor. apply IH. assumption.
    + apply thinned_drop. apply IH. assumption.
  - apply thinned_drop. apply IH. exact H12.
Qed.

Lemma thinned_incl (l' l : list A) : thinned l' l -> incl l' l.
Proof.
  induction 1 as [|a l' l H IH|a l' l H IH]; intros x Hx.
  - exact Hx.
  - destruct Hx as [-> | Hx]; [left; reflexivity | right; apply IH, Hx].
  - right. apply IH, Hx.
Qed.

Lemma thinned_length (l' l : list A) :
  thinned l' l -> (length l' <= length l)%nat.
Proof. induction 1; cbn; lia. Qed.

Lemma thinned_Forall (P : A -> Prop) (l' l : list A) :
  thinned l' l -> Forall P l -> Forall P l'.
Proof.
  intros H HP. apply Forall_forall. intros x Hx.
  rewrite Forall_forall in HP. apply HP. exact (thinned_incl _ _ H x Hx).
Qed.

Lemma thinned_map {B : Type} (f : A -> B) (l' l : list A) :
  thinned l' l -> thinned (map f l') (map f l).
Proof. induction 1; cbn; constructor; assumption. Qed.

Lemma thinned_NoDup (l' l : list A) : thinned l' l -> NoDup l -> NoDup l'.
Proof.
  induction 1 as [|a l' l H IH|a l' l H IH]; intros Hn.
  - exact Hn.
  - inversion Hn; subst. constructor.
    + intros Hin. apply (thinned_incl _ _ H) in Hin. contradiction.
    + apply IH. assumption.
  - inversion Hn; subst. apply IH. assumption.
Qed.

Lemma thinned_filter (f : A -> bool) (l : list A) : thinned (filter f l) l.
Proof.
  induction l as [|a l IH]; cbn.
  - constructor.
  - destruct (f a); constructor; exact IH.
Qed.

Lemma list_remove_thinned (oid : A -> nat) (o : A) (l l' : list A) :
  list_remove oid o l = Some l' -> thinned l' l.
Proof.
  revert l'. induction l as [|a l IH]; intros l' H; cbn in H.
  - discriminate.
  - destruct (Nat.eqb (oid a) (oid o)).
    + injection H as <-. apply thinned_drop, thinned_refl.
    + destruct (list_remove oid o l) as [r|]; [|discriminate].
      injection H as <-. constructor. apply IH. reflexivity.
Qed.
End Thinned.

(** ** What the collision phase can change *)

Lemma same_body_refl (p : Player.t) : same_body p p.
Proof. repeat split. Qed.

Lemma same_body_trans (p1 p2 p3 : Player.t) :
  same_body p1 p2 -> same_body p2 p3 -> same_body p1 p3.
Proof. unfold same_body. intuition congruence. Qed.

Lemma hit_same_body (now : Q) (p : Player.t) :
  same_body p (snd (Player.hit now p)).
Proof.
  unfold Player.hit.
  destruct (Qltb now (Player.invincible_until p)); [apply same_body_refl|].
  destruct (Player.has_shield p); repeat split.
Qed.

Lemma settled_refl (ev : Game.env) (w : Game.world) : settled ev w w.
Proof.
  unfold settled. repeat split; auto using thinned_refl; try lia.
Qed.

Lemma settled_trans (ev : Game.env) (w1 w2 w3 : Game.world) :
  settled ev w1 w2 -> settled ev w2 w3 -> settled ev w1 w3.
Proof.
  intros (E1 & P1 & B1 & S1 & H1 & N1 & T1 & L1 & U1 & V1)
         (E2 & P2 & B2 & S2 & H2 & N2 & T2 & L2 & U2 & V2).
  unfold settled.
  split; [exact (thinned_trans _ _ _ E2 E1)|].
  split; [exact (thinned_trans _ _ _ P2 P1)|].
  split; [exact (same_body_trans _ _ _ B1 B2)|].
  split; [destruct S2 as [S2|S2]; [rewrite S2; exact S1 | right; exact S2]|].
  split; [lia|].
  repeat (split; [congruence|]). auto.
Qed.

Lemma game_over_settled (ev : Game.env) (w : Game.world) :
  settled ev w (Game.game_over (Game.t_over ev) (Game.io_ok ev) w).
Proof.
  unfold settled, Game.game_over, saved, save_high_score.
  cbn [Game.set_state Game.set_game_over_time Game.score Game.high_score].
  destruct (Z.ltb_spec (Game.high_score (Game.game w))
                       (py_int (Game.score (Game.game w)))); cbn;
    repeat split; auto using thinned_refl; try lia.
  intros _ ->. reflexivity.
Qed.

Lemma collide_enemies_settled (now : Q) (ev : Game.env) :
  forall (snap : list Enemy.t) (w w' : Game.world),
    Game.collide_enemies now ev snap w = Some w' -> settled ev w w'.
Proof.
  induction snap as [|e snap IH]; intros w w' H; cbn [Game.collide_enemies] in H.
  - injection H as <-. apply settled_refl.
  - destruct (Rect.colliderect _ _); [|exact (IH _ _ H)].
    pose proof (hit_same_body now (Game.player (Game.game w))) as Hb.
    destruct (Player.hit now (Game.player (Game.game w))) as [is_lethal p].
    cbn [snd] in Hb.
    assert (Hp : settled ev w (Game.with_game (Game.set_player p) w)).
    { unfold settled, saved. cbn.
      repeat split; auto using thinned_refl; try lia; apply Hb. }
    destruct is_lethal.
    + apply IH in H.
      exact (settled_trans _ _ _ _ Hp
               (settled_trans _ _ _ _ (game_over_settled ev _) H)).
    + cbn [Game.with_game Game.game Game.set_player Game.enemies] in H.
      destruct (list_remove Enemy.oid e (Game.enemies (Game.game w)))
        as [l|] eqn:Hl; [|discriminate].
      apply IH in H.
      refine (settled_trans _ _ _ _ Hp (settled_trans _ _ _ _ _ H)).
      unfold settled, saved. cbn.
      repeat split; auto using thinned_refl, same_body_refl; try lia.
      exact (list_remove_thinned _ _ _ _ Hl).
Qed.

Lemma collide_powerups_settled (ev : Game.env) :
  forall (snap : list PowerUp.t) (w w' : Game.world),
    Game.collide_powerups snap w = Some w' ->
    settled ev w w' /\
    Game.enemies (Game.game w') = Game.enemies (Game.game w) /\
    Game.state (Game.game w') = Game.state (Game.game w) /\
    (Player.has_shield (Game.player (Game.game w)) = true ->
     Player.has_shield (Game.player (Game.game w')) = true).
Proof.
  induction snap as [|p snap IH]; intros w w' H; cbn [Game.collide_powerups] in H.
  - injection H as <-. split; [apply settled_refl|]. auto.
  - destruct (Rect.colliderect _ _); [|exact (IH _ _ H)].
    destruct (PowerUp.kind p).
    cbn [Game.with_game Game.game Game.set_player Game.powerups] in H.
    destruct (list_remove PowerUp.oid p (Game.powerups (Game.game w)))
      as [l|] eqn:Hl; [|discriminate].
    apply IH in H. destruct H as (Hs & He & Hst & Hsh).
    split; [|split; [exact He | split; [exact Hst|]]].
    + refine (settled_trans _ _ _ _ _ Hs).
      unfold settled, saved. cbn.
      repeat split; auto using thinned_refl; try lia.
      exact (list_remove_thinned _ _ _ _ Hl).
    + intros _. apply Hsh. reflexivity.
Qed.

Lemma handle_collisions_settled (now : Q) (ev : Game.env)
      (w w' : Game.world) :
  Game.handle_collisions now ev w = Some w' -> settled ev w w'.
Proof.
  unfold Game.handle_collisions. intros H.
  destruct (Game.collide_enemies now ev _ w) as [w1|] eqn:H1; [|discriminate].
  apply collide_enemies_settled in H1.
  apply (collide_powerups_settled ev) in H. destruct H as [H _].
  exact (settled_trans _ _ _ _ H1 H).
Qed.

(** ** The phases of a tick before the collisions *)

Lemma update_unfold (dt now : Q) (keys : Keys) (ev : Game.env)
      (w : Game.world) :
  Game.state (Game.game w) = S_PLAY ->
  Game.update dt now keys ev w =
  match Game.handle_collisions now ev (before_collisions dt now keys ev w) with
  | Some w5 =>
      Some (Game.update_score (now - Game.start_time (Game.game w)) w5)
  | None => None
  end.
Proof.
  intros Hplay. unfold Game.update, before_collisions.
  rewrite Hplay. cbn [State_eqb].
  destruct (update_player_frame dt now keys w) as (Hp & _).
  rewrite Hp.
  destruct (Game.difficulty _) as [si es]. reflexivity.
Qed.

Lemma fresh_below_thinned (n : nat) (ids' ids : list nat) :
  thinned ids' ids -> fresh_below n ids -> fresh_below n ids'.
Proof.
  intros H [H1 H2]. split.
  - exact (thinned_NoDup _ _ H H1).
  - exact (thinned_Forall _ _ _ H H2).
Qed.

Lemma fresh_below_le (n n' : nat) (ids : list nat) :
  (n <= n')%nat -> fresh_below n ids -> fresh_below n' ids.
Proof.
  intros Hn [H1 H2]. split; [exact H1|].
  rewrite Forall_forall in *. intros i Hi. specialize (H2 i Hi). lia.
Qed.

Lemma fresh_below_snoc (n : nat) (ids : list nat) :
  fresh_below n ids -> fresh_below (S n) (ids ++ [n]).
Proof.
  intros [H1 H2]. split.
  - induction ids as [|i ids IH]; cbn.
    + constructor; [intros []|constructor].
    + inversion H1; subst. inversion H2; subst. constructor.
      * rewrite in_app_iff. intros [Hin | [Heq | []]]; [contradiction|lia].
      * apply IH; assumption.
  - apply Forall_app. split.
    + rewrite Forall_forall in *. intros i Hi. specialize (H2 i Hi). lia.
    + constructor; [lia|constructor].
Qed.

Lemma distinct_iff (w : Game.world) :
  distinct w <->
  fresh_below (Game.next_oid w) (map Enemy.oid (Game.enemies (Game.game w))) /\
  fresh_below (Game.next_oid w) (map PowerUp.oid (Game.powerups (Game.game w))).
Proof.
  unfold distinct, fresh_below. rewrite !Forall_map. tauto.
Qed.

Lemma update_and_keep_thinned {A B : Type} (f : A -> B) (upd : A -> A * bool)
      (l : list A) :
  (forall a, f (fst (upd a)) = f a) ->
  thinned (map f (update_and_keep upd l)) (map f l).
Proof.
  intros Hf. unfold update_and_keep.
  induction l as [|a l IH]; cbn.
  - constructor.
  - destruct (snd (upd a)); cbn.
    + rewrite Hf. constructor. exact IH.
    + constructor. exact IH.
Qed.

Lemma update_and_keep_alive {A : Type} (upd : A -> A * bool) (P : A -> Prop)
      (l : list A) :
  (forall a, snd (upd a) = true -> P (fst (upd a))) ->
  Forall P (update_and_keep upd l).
Proof.
  intros H. unfold update_and_keep. apply Forall_forall. intros x Hx.
  apply in_map_iff in Hx. destruct Hx as ([a b] & <- & Hin).
  apply filter_In in Hin. destruct Hin as [Hin Hb]. cbn in Hb. subst b.
  apply in_map_iff in Hin. destruct Hin as (a0 & Ha0 & _).
  specialize (H a0). rewrite Ha0 in H. apply H. reflexivity.
Qed.

Lemma update_and_keep_length {A : Type} (upd : A -> A * bool) (l : list A) :
  (length (update_and_keep upd l) <= length l)%nat.
Proof.
  unfold update_and_keep. rewrite length_map.
  pose proof (thinned_length _ _ (thinned_filter snd (map upd l))) as H.
  rewrite length_map in H. exact H.
Qed.

Lemma distinct_ext (w w' : Game.world) :
  Game.enemies (Game.game w') = Game.enemies (Game.game w) ->
  Game.powerups (Game.game w') = Game.powerups (Game.game w) ->
  Game.next_oid w' = Game.next_oid w ->
  distinct w -> distinct w'.
Proof. unfold distinct. intros -> -> ->. tauto. Qed.

Lemma spawn_enemy_distinct (d : Enemy.draw) (spd : Q) (w : Game.world) :
  distinct w -> distinct (Game.spawn_enemy d spd w).
Proof.
  rewrite !distinct_iff. intros [He Hp]. unfold Game.spawn_enemy.
  cbn [Game.game Game.next_oid Game.enemies Game.powerups Game.set_enemies].
  split.
  - rewrite map_app. cbn [map Enemy.init Enemy.oid].
    apply fresh_below_snoc. exact He.
  - apply (fresh_below_le (Game.next_oid w)); [lia | exact Hp].
Qed.

Lemma spawn_powerup_distinct (d : PowerUp.draw) (w : Game.world) :
  distinct w -> distinct (Game.spawn_powerup d w).
Proof.
  rewrite !distinct_iff. intros [He Hp]. unfold Game.spawn_powerup.
  cbn [Game.game Game.next_oid Game.enemies Game.powerups Game.set_powerups].
  split.
  - apply (fresh_below_le (Game.next_oid w)); [lia | exact He].
  - rewrite map_app. cbn [map PowerUp.init PowerUp.oid].
    apply fresh_below_snoc. exact Hp.
Qed.

Lemma update_entities_distinct (dt : Q) (w : Game.world) :
  distinct w -> distinct (Game.update_entities dt w).
Proof.
  rewrite !distinct_iff. intros [He Hp]. unfold Game.update_entities.
  cbn [Game.with_game Game.game Game.next_oid Game.enemies Game.powerups
       Game.set_enemies Game.set_powerups].
  split.
  - refine (fresh_below_thinned _ _ _ _ He).
    apply update_and_keep_thinned. reflexivity.
  - refine (fresh_below_thinned _ _ _ _ Hp).
    apply update_and_keep_thinned. reflexivity.
Qed.

Lemma before_collisions_distinct (dt now : Q) (keys : Keys) (ev : Game.env)
      (w : Game.world) :
  distinct w -> distinct (before_collisions dt now keys ev w).
Proof.
  intros H. unfold before_collisions.
  destruct (Game.difficulty _) as [si es].
  apply update_entities_distinct.
  assert (H1 : distinct (Game.update_player dt now keys w)).
  { refine (distinct_ext w _ _ _ _ H); unfold Game.update_player;
      destruct (K_SPACE keys || K_LCTRL keys); reflexivity. }
  set (w1 := Game.update_player dt now keys w) in *.
  assert (H2 : distinct (Game.update_spawn
                           now (now - Game.start_time (Game.game w1)) si es ev w1)).
  { unfold Game.update_spawn. destruct (Qgeb _ si); [|exact H1].
    assert (H0 : distinct (Game.with_game (Game.set_last_spawn now) w1)).
    { refine (distinct_ext w1 _ _ _ _ H1); reflexivity. }
    destruct (Qltb _ _); repeat apply spawn_enemy_distinct; exact H0. }
  unfold Game.update_powerup_timer. destruct (Qgeb _ _); [|exact H2].
  refine (distinct_ext _ _ _ _ _ (spawn_powerup_distinct (Game.r_powerup ev) _ H2));
    reflexivity.
Qed.

Lemma before_collisions_frame (dt now : Q) (keys : Keys) (ev : Game.env)
      (w : Game.world) :
  let w4 := before_collisions dt now keys ev w in
  Game.state (Game.game w4) = Game.state (Game.game w) /\
  Game.start_time (Game.game w4) = Game.start_time (Game.game w) /\
  Game.high_score (Game.game w4) = Game.high_score (Game.game w) /\
  Game.hs_file w4 = Game.hs_file w /\
  Game.player (Game.game w4)
  = Game.player (Game.game (Game.update_player dt now keys w)).
Proof.
  unfold before_collisions.
  destruct (Game.difficulty _) as [si es].
  unfold Game.update_entities, Game.update_powerup_timer, Game.update_spawn,
    Game.update_player.
  destruct (K_SPACE keys || K_LCTRL keys);
    destruct (Qgeb _ si); try destruct (Qltb _ _);
    destruct (Qgeb _ _); cbn; repeat split.
Qed.

Lemma before_collisions_above_bottom (dt now : Q) (keys : Keys)
      (ev : Game.env) (w : Game.world) :
  above_bottom (before_collisions dt now keys ev w).
Proof.
  unfold before_collisions.
  destruct (Game.difficulty _) as [si es].
  unfold above_bottom, Game.update_entities.
  cbn [Game.with_game Game.game Game.enemies Game.powerups
       Game.set_enemies Game.set_powerups].
  split; apply update_and_keep_alive; intros a Ha;
    apply Z.leb_le; exact Ha.
Qed.

Lemma before_collisions_count (dt now : Q) (keys : Keys) (ev : Game.env)
      (w : Game.world) :
  let w4 := before_collisions dt now keys ev w in
  (length (Game.enemies (Game.game w4))
   <= length (Game.enemies (Game.game w)) + 2)%nat /\
  ((now - Game.last_spawn (Game.game w) < SPAWN_MIN_INTERVAL)%Q ->
   (length (Game.enemies (Game.game w4))
    <= length (Game.enemies (Game.game w)))%nat /\
   Game.last_spawn (Game.game w4) = Game.last_spawn (Game.game w)).
Proof.
  unfold before_collisions.
  pose proof (difficulty_range_core
                (now - Game.start_time
                         (Game.game (Game.update_player dt now keys w))))
    as (Hsi & _).
  destruct (Game.difficulty _) as [si es]. cbn [fst] in Hsi.
  assert (Hl : Game.last_spawn (Game.game (Game.update_player dt now keys w))
               = Game.last_spawn (Game.game w)).
  { unfold Game.update_player.
    destruct (K_SPACE keys || K_LCTRL keys); reflexivity. }
  assert (He : Game.enemies (Game.game (Game.update_player dt now keys w))
               = Game.enemies (Game.game w)).
  { unfold Game.update_player.
    destruct (K_SPACE keys || K_LCTRL keys); reflexivity. }
  set (w1 := Game.update_player dt now keys w) in *.
  unfold Game.update_entities, Game.update_powerup_timer.
  split.
  - destruct (Qgeb _ _);
      cbn [Game.with_game Game.game Game.enemies Game.set_enemies
           Game.set_powerups Game.set_next_powerup_t Game.spawn_powerup];
      (eapply Nat.le_trans; [apply update_and_keep_length|]);
      unfold Game.update_spawn; destruct (Qgeb _ si); try destruct (Qltb _ _);
      cbn [Game.with_game Game.game Game.enemies Game.set_enemies
           Game.set_last_spawn Game.spawn_enemy];
      rewrite ?length_app, ?He; cbn [length]; lia.
  - intros Hsoon.
    assert (E : Game.update_spawn now (now - Game.start_time (Game.game w1))
                                  si es ev w1 = w1).
    { unfold Game.update_spawn.
      assert (E : Qgeb (now - Game.last_spawn (Game.game w1)) si = false).
      { apply Qgeb_false_iff. rewrite Hl. lra. }
      rewrite E. reflexivity. }
    rewrite E.
    destruct (Qgeb _ _);
      cbn [Game.with_game Game.game Game.enemies Game.set_enemies
           Game.set_powerups Game.set_next_powerup_t Game.spawn_powerup
           Game.last_spawn];
      (split; [|exact Hl]);
      (eapply Nat.le_trans; [apply update_and_keep_length|]);
      rewrite He; lia.
Qed.

(** ** What a tick guarantees *)

Lemma update_total (dt now : Q) (keys : Keys) (ev : Game.env)
      (w : Game.world) :
  exists w',
    Game.update dt now keys ev w = Some w' /\
    (Game.state (Game.game w) <> S_PLAY -> w' = w) /\
    (Game.state (Game.game w) = S_PLAY ->
     exists w5,
       Game.handle_collisions now ev (before_collisions dt now keys ev w)
       = Some w5 /\
       w' = Game.update_score (now - Game.start_time (Game.game w)) w5).
Proof.
  destruct (Game.state (Game.game w)) eqn:Hst;
    try (exists w; unfold Game.update; rewrite Hst; cbn;
         split; [reflexivity|]; split; [reflexivity | discriminate]).
  rewrite (update_unfold dt now keys ev w Hst).
  destruct (handle_collisions_runs now ev (before_collisions dt now keys ev w))
    as (w5 & H5 & _).
  rewrite H5. eexists. split; [reflexivity|].
  split; [intros H; contradiction|].
  intros _. exists w5. split; reflexivity.
Qed.

Lemma update_never_raises_core (dt now : Q) (keys : Keys) (ev : Game.env)
        (w : Game.world) :
  exists w',
    Game.update dt now keys ev w = Some w' /\
    (Game.state (Game.game w') = Game.state (Game.game w) \/
     Game.state (Game.game w) = S_PLAY /\
     Game.state (Game.game w') = S_GAMEOVER) /\
    (Game.state (Game.game w) <> S_PLAY -> w' = w).
Proof.
  destruct (update_total dt now keys ev w) as (w' & Hu & Hidle & Hplay).
  exists w'. split; [exact Hu|]. split; [|exact Hidle].
  destruct (Game.state (Game.game w)) eqn:Hst;
    try (rewrite Hidle by discriminate; left; exact Hst).
  destruct (Hplay eq_refl) as (w5 & H5 & ->).
  apply handle_collisions_settled in H5.
  destruct H5 as (_ & _ & _ & Hs & _).
  destruct (before_collisions_frame dt now keys ev w) as (Hs4 & _).
  cbn [Game.update_score Game.with_game Game.game Game.set_score Game.state].
  rewrite Hs4, Hst in Hs.
  destruct Hs as [Hs | Hs]; [left; exact Hs | right; split; [reflexivity | exact Hs]].
Qed.

(** X11.  [update] never raises: the [list.remove] calls of the collision
    phase always find their object.  The only change of session state it
    makes is from playing to game-over, and outside the playing state it
    changes nothing. *)
Theorem update_never_raises (dt now : Q) (keys : Keys) (ev : Game.env)
        (w : Game.world) :
  exists w',
    Game.update dt now keys ev w = Some w' /\
    (Game.state (Game.game w') = Game.state (Game.game w) \/
     Game.state (Game.game w) = S_PLAY /\
     Game.state (Game.game w') = S_GAMEOVER) /\
    (Game.state (Game.game w) <> S_PLAY -> w' = w).
Proof. exact (update_never_raises_core dt now keys ev w). Qed.

Lemma update_never_raises_witness :
  Game.update (16 # 1000) 150 keys_space quiet_env
              (Game.with_game (Game.set_state S_PAUSE) crowded_session)
  = Some (Game.with_game (Game.set_state S_PAUSE) crowded_session).
Proof.
  destruct (update_never_raises
              (16 # 1000) 150 keys_space quiet_env
              (Game.with_game (Game.set_state S_PAUSE) crowded_session))
    as (w' & Hu & _ & Hidle).
  rewrite Hu. f_equal. apply Hidle. discriminate.
Defined.

Lemma update_drops_fallen_entities_core (dt now : Q) (keys : Keys)
        (ev : Game.env) (w : Game.world) :
  Game.state (Game.game w) = S_PLAY ->
  exists w',
    Game.update dt now keys ev w = Some w' /\ above_bottom w'.
Proof.
  intros Hst.
  destruct (update_total dt now keys ev w) as (w' & Hu & _ & Hplay).
  exists w'. split; [exact Hu|].
  destruct (Hplay Hst) as (w5 & H5 & ->).
  apply handle_collisions_settled in H5.
  destruct H5 as (He & Hp & _).
  destruct (before_collisions_above_bottom dt now keys ev w) as [Ae Ap].
  split; cbn.
  - exact (thinned_Forall _ _ _ He Ae).
  - exact (thinned_Forall _ _ _ Hp Ap).
Qed.

(** X12.  After a tick in the playing state no live enemy and no live
    power-up is below the bottom edge of the field. *)
Theorem update_drops_fallen_entities (dt now : Q) (keys : Keys)
        (ev : Game.env) (w : Game.world) :
  Game.state (Game.game w) = S_PLAY ->
  exists w',
    Game.update dt now keys ev w = Some w' /\ above_bottom w'.
Proof. exact (update_drops_fallen_entities_core dt now keys ev w). Qed.

Lemma update_drops_fallen_entities_witness :
  exists w',
    Game.update (16 # 1000) (105016 # 1000) no_keys quiet_env crowded_session
    = Some w' /\ above_bottom w'.
Proof.
  apply (update_drops_fallen_entities
           (16 # 1000) (105016 # 1000) no_keys quiet_env crowded_session).
  reflexivity.
Defined.

(** X13.  A tick adds at most two enemies, and none at all when less than
    [SPAWN_MIN_INTERVAL] has passed since the last spawn. *)
Theorem update_spawn_limit (dt now : Q) (keys : Keys) (ev : Game.env)
        (w : Game.world) :
  exists w',
    Game.update dt now keys ev w = Some w' /\
    (length (Game.enemies (Game.game w'))
     <= length (Game.enemies (Game.game w)) + 2)%nat /\
    ((now - Game.last_spawn (Game.game w) < SPAWN_MIN_INTERVAL)%Q ->
     (length (Game.enemies (Game.game w'))
      <= length (Game.enemies (Game.game w)))%nat).
Proof.
  destruct (update_total dt now keys ev w) as (w' & Hu & Hidle & Hplay).
  exists w'. split; [exact Hu|].
  destruct (Game.state (Game.game w)) eqn:Hst;
    try (rewrite Hidle by discriminate; split; [lia | intros _; lia]).
  destruct (Hplay eq_refl) as (w5 & H5 & ->).
  apply handle_collisions_settled in H5.
  destruct H5 as (He & _). apply thinned_length in He.
  destruct (before_collisions_count dt now keys ev w) as [Hc Hn].
  cbn [Game.update_score Game.with_game Game.game Game.set_score Game.enemies].
  split; [lia|]. intros Hsoon. destruct (Hn Hsoon) as [Hn' _]. lia.
Qed.

Lemma update_spawn_limit_witness :
  exists w',
    Game.update (16 # 1000) 105 no_keys quiet_env crowded_session = Some w' /\
    (length (Game.enemies (Game.game w')) <= 6)%nat.
Proof.
  destruct (update_spawn_limit (16 # 1000) 105 no_keys quiet_env
                               crowded_session) as (w' & Hu & _ & H).
  exists w'. split; [exact Hu|]. apply H. reflexivity.
Defined.

Lemma update_keeps_best_score_core (dt now : Q) (keys : Keys) (ev : Game.env)
        (w : Game.world) :
  exists w',
    Game.update dt now keys ev w = Some w' /\
    Game.high_score (Game.game w) <= Game.high_score (Game.game w') /\
    (saved w -> Game.io_ok ev = true -> saved w').
Proof.
  destruct (update_total dt now keys ev w) as (w' & Hu & Hidle & Hplay).
  exists w'. split; [exact Hu|].
  destruct (Game.state (Game.game w)) eqn:Hst;
    try (rewrite Hidle by discriminate; split; [lia | auto]).
  destruct (Hplay eq_refl) as (w5 & H5 & ->).
  apply handle_collisions_settled in H5.
  destruct H5 as (_ & _ & _ & _ & Hh & _ & _ & _ & _ & Hsv).
  destruct (before_collisions_frame dt now keys ev w)
    as (_ & _ & Hh4 & Hf4 & _).
  unfold saved in *.
  cbn [Game.update_score Game.with_game Game.game Game.set_score
       Game.high_score Game.hs_file].
  rewrite Hh4, Hf4 in *. split; [exact Hh | exact Hsv].
Qed.

(** X14.  A tick never lowers the best score; and when the file held the
    best score before the tick and the write does not fail, it holds the
    best score after it. *)
Theorem update_keeps_best_score (dt now : Q) (keys : Keys) (ev : Game.env)
        (w : Game.world) :
  exists w',
    Game.update dt now keys ev w = Some w' /\
    Game.high_score (Game.game w) <= Game.high_score (Game.game w') /\
    (saved w -> Game.io_ok ev = true -> saved w').
Proof. exact (update_keeps_best_score_core dt now keys ev w). Qed.

Lemma update_keeps_best_score_witness :
  exists w',
    Game.update (16 # 1000) 105 no_keys quiet_env crowded_session = Some w' /\
    saved w'.
Proof.
  destruct (update_keeps_best_score (16 # 1000) 105 no_keys quiet_env
                                    crowded_session) as (w' & Hu & _ & H).
  exists w'. split; [exact Hu|]. apply H; reflexivity.
Defined.

Lemma update_keeps_player_in_field_core (dt now : Q) (keys : Keys)
        (ev : Game.env) (w : Game.world) :
  Game.state (Game.game w) = S_PLAY ->
  Player.size (Game.player (Game.game w)) <= WIDTH ->
  Player.size (Game.player (Game.game w)) <= HEIGHT ->
  exists w',
    Game.update dt now keys ev w = Some w' /\
    in_field (Game.player (Game.game w')) /\
    Player.size (Game.player (Game.game w'))
    = Player.size (Game.player (Game.game w)).
Proof.
  intros Hst Hw Hh.
  destruct (update_total dt now keys ev w) as (w' & Hu & _ & Hplay).
  exists w'. split; [exact Hu|].
  destruct (Hplay Hst) as (w5 & H5 & ->).
  apply handle_collisions_settled in H5.
  destruct H5 as (_ & _ & (Hr & Hsz & _) & _).
  destruct (before_collisions_frame dt now keys ev w)
    as (_ & _ & _ & _ & Hp4).
  cbn [Game.update_score Game.with_game Game.game Game.set_score Game.player].
  rewrite Hp4 in Hr, Hsz.
  pose proof (player_update_stays_in_field_core dt keys now _ Hw Hh) as Hin.
  assert (Hb : Player.rect (Game.player (Game.game
                 (Game.update_player dt now keys w)))
               = Player.rect (Player.update dt keys now
                                (Game.player (Game.game w))) /\
               Player.size (Game.player (Game.game
                 (Game.update_player dt now keys w)))
               = Player.size (Player.update dt keys now
                                (Game.player (Game.game w)))).
  { unfold Game.update_player.
    destruct (K_SPACE keys || K_LCTRL keys); cbn;
      [unfold Player.try_dash; destruct (Qgeb _ _); cbn|];
      split; reflexivity. }
  destruct Hb as [Hb1 Hb2].
  assert (Hs0 : Player.size (Player.update dt keys now
                               (Game.player (Game.game w)))
                = Player.size (Game.player (Game.game w))).
  { unfold Player.update.
    destruct (Player.normalize (Player.direction keys)). reflexivity. }
  unfold in_field in *. rewrite Hr, Hsz, Hb1, Hb2.
  split; [exact Hin | exact Hs0].
Qed.

(** X15.  After a tick the player is inside the field, whatever the keys
    and the time step (the player being no larger than the field). *)
Theorem update_keeps_player_in_field (dt now : Q) (keys : Keys)
        (ev : Game.env) (w : Game.world) :
  Game.state (Game.game w) = S_PLAY ->
  Player.size (Game.player (Game.game w)) <= WIDTH ->
  Player.size (Game.player (Game.game w)) <= HEIGHT ->
  exists w',
    Game.update dt now keys ev w = Some w' /\
    in_field (Game.player (Game.game w')) /\
    Player.size (Game.player (Game.game w'))
    = Player.size (Game.player (Game.game w)).
Proof. exact (update_keeps_player_in_field_core dt now keys ev w). Qed.

Lemma update_keeps_player_in_field_witness :
  exists w',
    Game.update 1000 105 keys_right_down quiet_env crowded_session = Some w' /\
    in_field (Game.player (Game.game w')).
Proof.
  destruct (update_keeps_player_in_field 1000 105 keys_right_down quiet_env
                                         crowded_session)
    as (w' & Hu & Hin & _); try reflexivity; try discriminate.
  exists w'. split; [exact Hu | exact Hin].
Defined.

(** ** No enemy is left on the player *)

Lemma occurrences_in (e : Enemy.t) (es : list Enemy.t) :
  In e es -> (0 < occurrences Enemy.oid (Enemy.oid e) es)%nat.
Proof.
  intros Hin. destruct (occurrences Enemy.oid (Enemy.oid e) es) eqn:E; [|lia].
  exfalso. exact (occurrences_zero_not_in _ _ E Hin).
Qed.

Lemma occurrences_absent (i : nat) (es : list Enemy.t) :
  ~ In i (map Enemy.oid es) -> occurrences Enemy.oid i es = 0%nat.
Proof.
  induction es as [|a es IH]; intros H; [reflexivity|].
  rewrite occurrences_cons. cbn in H.
  destruct (Nat.eqb_spec (Enemy.oid a) i) as [Heq | Hne].
  - exfalso. apply H. left. exact Heq.
  - rewrite IH; [reflexivity|]. intros Hin. apply H. right. exact Hin.
Qed.

Lemma occurrences_NoDup (e : Enemy.t) (es : list Enemy.t) :
  NoDup (map Enemy.oid es) -> In e es ->
  occurrences Enemy.oid (Enemy.oid e) es = 1%nat.
Proof.
  induction es as [|a es IH]; intros Hn Hin; [contradiction|].
  cbn in Hn. inversion Hn as [|? ? Hnot Hn']; subst.
  rewrite occurrences_cons. destruct Hin as [-> | Hin].
  - rewrite Nat.eqb_refl, (occurrences_absent _ _ Hnot). reflexivity.
  - destruct (Nat.eqb_spec (Enemy.oid a) (Enemy.oid e)) as [Heq | Hne].
    + exfalso. apply Hnot. rewrite Heq. apply in_map. exact Hin.
    + exact (IH Hn' Hin).
Qed.

Lemma filter_none {A : Type} (f : A -> bool) (l : list A) :
  (forall a, In a l -> f a = false) -> filter f l = [].
Proof.
  induction l as [|a l IH]; intros H; [reflexivity|].
  cbn. rewrite (H a (or_introl eq_refl)). apply IH.
  intros b Hb. apply H. right. exact Hb.
Qed.

Lemma collide_enemies_no_overlap (now : Q) (ev : Game.env) :
  forall (snap : list Enemy.t) (w : Game.world),
    overlapping (Player.rect (Game.player (Game.game w))) snap = [] ->
    Game.collide_enemies now ev snap w = Some w.
Proof.
  induction snap as [|e snap IH]; intros w H; [reflexivity|].
  cbn [Game.collide_enemies]. rewrite overlapping_cons in H.
  destruct (Rect.colliderect _ (Enemy.rect e)); [discriminate|].
  exact (IH w H).
Qed.

Lemma protected_dec (now : Q) (p : Player.t) :
  protected now p \/ ~ protected now p.
Proof.
  unfold protected.
  destruct (Qltb now (Player.invincible_until p)); [left; left; reflexivity|].
  destruct (Player.has_shield p); [left; right; reflexivity|].
  right. intros [H | H]; discriminate.
Qed.

Lemma handle_collisions_clears_overlap_core (now : Q) (ev : Game.env)
        (w : Game.world) :
  NoDup (map Enemy.oid (Game.enemies (Game.game w))) ->
  exists w',
    Game.handle_collisions now ev w = Some w' /\
    (Game.state (Game.game w') = S_GAMEOVER \/
     overlapping (Player.rect (Game.player (Game.game w')))
                 (Game.enemies (Game.game w')) = []).
Proof.
  intros Hnd.
  set (r := Player.rect (Game.player (Game.game w))).
  assert (Hpu : forall w1,
             Player.rect (Game.player (Game.game w1)) = r ->
             overlapping r (Game.enemies (Game.game w1)) = [] ->
             exists w',
               Game.collide_powerups (Game.powerups (Game.game w1)) w1 = Some w' /\
               overlapping (Player.rect (Game.player (Game.game w')))
                           (Game.enemies (Game.game w')) = []).
  { intros w1 Hr1 Ho1.
    destruct (collide_powerups_runs _ w1 (covered_refl _ _))
      as (w2 & H2 & _ & He2 & _).
    exists w2. split; [exact H2|].
    destruct (collide_powerups_settled ev _ _ _ H2)
      as ((_ & _ & (Hr2 & _) & _) & _).
    rewrite Hr2, Hr1, He2. exact Ho1. }
  unfold Game.handle_collisions.
  destruct (protected_dec now (Game.player (Game.game w))) as [Hp | Hp].
  - destruct (collide_enemies_protected now ev r _ w (covered_refl _ _)
                                        eq_refl Hp)
      as (w1 & H1 & _ & _ & Hocc).
    rewrite H1.
    destruct (collide_enemies_settled now ev _ _ _ H1)
      as (Hth & _ & (Hr1 & _) & _).
    assert (Ho1 : overlapping r (Game.enemies (Game.game w1)) = []).
    { apply filter_none. intros e Hin.
      destruct (Rect.colliderect r (Enemy.rect e)) eqn:Hov; [|reflexivity].
      exfalso.
      pose proof (thinned_incl _ _ Hth e Hin) as Hin0.
      pose proof (occurrences_overlapping r e _ Hin0 Hov) as H3.
      pose proof (occurrences_NoDup e _ Hnd Hin0) as H4.
      pose proof (occurrences_in e _ Hin) as H5.
      specialize (Hocc (Enemy.oid e)). lia. }
    destruct (Hpu w1 Hr1 Ho1) as (w' & Hw' & Ho').
    exists w'. split; [exact Hw' | right; exact Ho'].
  - destruct (overlapping r (Game.enemies (Game.game w))) eqn:Ho.
    + rewrite (collide_enemies_no_overlap now ev _ w Ho).
      destruct (Hpu w eq_refl Ho) as (w' & Hw' & Ho').
      exists w'. split; [exact Hw' | right; exact Ho'].
    + assert (Hne : overlapping (Player.rect (Game.player (Game.game w)))
                                (Game.enemies (Game.game w)) <> []).
      { fold r. rewrite Ho. discriminate. }
      destruct (handle_collisions_unprotected now ev w Hp Hne)
        as (w' & Hw' & Hst).
      unfold Game.handle_collisions in Hw'.
      exists w'. split; [exact Hw' | left; exact Hst].
Qed.

(** X16.  When the live enemies are distinct objects, [handle_collisions]
    leaves the session in game-over or leaves no live enemy overlapping the
    player. *)
Theorem handle_collisions_clears_overlap (now : Q) (ev : Game.env)
        (w : Game.world) :
  NoDup (map Enemy.oid (Game.enemies (Game.game w))) ->
  exists w',
    Game.handle_collisions now ev w = Some w' /\
    (Game.state (Game.game w') = S_GAMEOVER \/
     overlapping (Player.rect (Game.player (Game.game w')))
                 (Game.enemies (Game.game w')) = []).
Proof. exact (handle_collisions_clears_overlap_core now ev w). Qed.

Lemma handle_collisions_clears_overlap_witness :
  exists w',
    Game.handle_collisions (1051 # 10) quiet_env dash_session = Some w' /\
    (Game.state (Game.game w') = S_GAMEOVER \/
     overlapping (Player.rect (Game.player (Game.game w')))
                 (Game.enemies (Game.game w')) = []).
Proof.
  apply (handle_collisions_clears_overlap (1051 # 10) quiet_env dash_session).
  repeat constructor. intros [].
Defined.

Lemma update_leaves_no_overlap_core (dt now : Q) (keys : Keys) (ev : Game.env)
        (w : Game.world) :
  Game.state (Game.game w) = S_PLAY ->
  distinct w ->
  exists w',
    Game.update dt now keys ev w = Some w' /\
    distinct w' /\
    (Game.state (Game.game w') = S_GAMEOVER \/
     overlapping (Player.rect (Game.player (Game.game w')))
                 (Game.enemies (Game.game w')) = []).
Proof.
  intros Hst Hd.
  rewrite (update_unfold dt now keys ev w Hst).
  pose proof (before_collisions_distinct dt now keys ev w Hd) as Hd4.
  set (w4 := before_collisions dt now keys ev w) in *.
  destruct (handle_collisions_clears_overlap_core now ev w4 (proj1 Hd4))
    as (w5 & H5 & Ho).
  rewrite H5. eexists. split; [reflexivity|].
  cbn [Game.update_score Game.with_game Game.game Game.set_score
       Game.state Game.player Game.enemies].
  split; [|exact Ho].
  destruct (handle_collisions_settled now ev _ _ H5)
    as (He & Hp & _ & _ & _ & Hn & _).
  apply distinct_iff. apply distinct_iff in Hd4. destruct Hd4 as [D1 D2].
  cbn [Game.update_score Game.with_game Game.game Game.set_score
       Game.next_oid Game.enemies Game.powerups].
  rewrite Hn. split.
  - exact (fresh_below_thinned _ _ _ (thinned_map Enemy.oid _ _ He) D1).
  - exact (fresh_below_thinned _ _ _ (thinned_map PowerUp.oid _ _ Hp) D2).
Qed.

(** X17.  Live entities stay distinct objects through a tick: every spawn
    creates a new object and nothing else adds entries.  Hence after a tick
    in the playing state the session is over or no live enemy overlaps the
    player. *)
Theorem update_leaves_no_overlap (dt now : Q) (keys : Keys) (ev : Game.env)
        (w : Game.world) :
  Game.state (Game.game w) = S_PLAY ->
  distinct w ->
  exists w',
    Game.update dt now keys ev w = Some w' /\
    distinct w' /\
    (Game.state (Game.game w') = S_GAMEOVER \/
     overlapping (Player.rect (Game.player (Game.game w')))
                 (Game.enemies (Game.game w')) = []).
Proof. exact (update_leaves_no_overlap_core dt now keys ev w). Qed.

Lemma crowded_session_distinct : distinct crowded_session.
Proof.
  apply distinct_iff. split; split; cbn.
  - repeat (constructor; [cbn; intuition discriminate|]). constructor.
  - repeat (constructor; [lia|]). constructor.
  - constructor.
  - constructor.
Qed.

Lemma update_leaves_no_overlap_witness :
  exists w',
    Game.update (16 # 1000) 105 no_keys quiet_env crowded_session = Some w' /\
    distinct w'.
Proof.
  destruct (update_leaves_no_overlap (16 # 1000) 105 no_keys quiet_env
              crowded_session eq_refl crowded_session_distinct)
    as (w' & Hu & Hd & _).
  exists w'. split; [exact Hu | exact Hd].
Defined.

(** ** Picking up a shield *)

Lemma collide_enemies_keeps_powerups (now : Q) (ev : Game.env) :
  forall (snap : list Enemy.t) (w w' : Game.world),
    Game.collide_enemies now ev snap w = Some w' ->
    Game.powerups (Game.game w') = Game.powerups (Game.game w).
Proof.
  induction snap as [|e snap IH]; intros w w' H; cbn [Game.collide_enemies] in H.
  - injection H as <-. reflexivity.
  - destruct (Rect.colliderect _ _); [|exact (IH _ _ H)].
    destruct (Player.hit now (Game.player (Game.game w))) as [is_lethal p].
    destruct is_lethal.
    + apply IH in H. rewrite H.
      destruct (game_over_frame (Game.t_over ev) (Game.io_ok ev)
                  (Game.with_game (Game.set_player p) w)) as (_ & Hp & _).
      exact Hp.
    + cbn [Game.with_game Game.game Game.set_player Game.enemies] in H.
      destruct (list_remove _ _ _) as [l|]; [|discriminate].
      apply IH in H. exact H.
Qed.

Lemma collide_powerups_pickup (ev : Game.env) :
  forall (snap : list PowerUp.t) (w w' : Game.world),
    Game.collide_powerups snap w = Some w' ->
    (exists pu, In pu snap /\
                Rect.colliderect (Player.rect (Game.player (Game.game w)))
                                 (PowerUp.rect pu) = true) ->
    Player.has_shield (Game.player (Game.game w')) = true /\
    (length (Game.powerups (Game.game w'))
     < length (Game.powerups (Game.game w)))%nat.
Proof.
  induction snap as [|p snap IH]; intros w w' H (pu & Hin & Hov).
  - contradiction.
  - cbn [Game.collide_powerups] in H.
    destruct (Rect.colliderect _ (PowerUp.rect p)) eqn:Hc.
    + destruct (PowerUp.kind p).
      cbn [Game.with_game Game.game Game.set_player Game.powerups] in H.
      destruct (list_remove PowerUp.oid p (Game.powerups (Game.game w)))
        as [l|] eqn:Hl; [|discriminate].
      apply (collide_powerups_settled ev) in H.
      destruct H as ((_ & Hth & _) & _ & _ & Hsh).
      split; [apply Hsh; reflexivity|].
      apply thinned_length in Hth. cbn in Hth.
      rewrite (list_remove_length _ _ _ _ Hl). lia.
    + apply (IH w w' H). exists pu. split; [|exact Hov].
      destruct Hin as [-> | Hin]; [congruence | exact Hin].
Qed.

Lemma shield_pickup_core (now : Q) (ev : Game.env) (w : Game.world)
        (pu : PowerUp.t) :
  In pu (Game.powerups (Game.game w)) ->
  Rect.colliderect (Player.rect (Game.player (Game.game w)))
                   (PowerUp.rect pu) = true ->
  exists w',
    Game.handle_collisions now ev w = Some w' /\
    Player.has_shield (Game.player (Game.game w')) = true /\
    (length (Game.powerups (Game.game w'))
     < length (Game.powerups (Game.game w)))%nat.
Proof.
  intros Hin Hov.
  destruct (handle_collisions_runs now ev w) as (w' & Hw' & _).
  exists w'. split; [exact Hw'|].
  unfold Game.handle_collisions in Hw'.
  destruct (Game.collide_enemies now ev _ w) as [w1|] eqn:H1; [|discriminate].
  pose proof (collide_enemies_keeps_powerups now ev _ _ _ H1) as Hp1.
  destruct (collide_enemies_settled now ev _ _ _ H1)
    as (_ & _ & (Hr1 & _) & _).
  rewrite <- Hp1.
  apply (collide_powerups_pickup ev _ _ _ Hw').
  exists pu. rewrite Hp1, Hr1. split; assumption.
Qed.

(** X18.  A power-up that overlaps the player when [handle_collisions]
    runs is picked up: afterwards the player holds a shield and the live
    power-up list is shorter. *)
Theorem shield_pickup (now : Q) (ev : Game.env) (w : Game.world)
        (pu : PowerUp.t) :
  In pu (Game.powerups (Game.game w)) ->
  Rect.colliderect (Player.rect (Game.player (Game.game w)))
                   (PowerUp.rect pu) = true ->
  exists w',
    Game.handle_collisions now ev w = Some w' /\
    Player.has_shield (Game.player (Game.game w')) = true /\
    (length (Game.powerups (Game.game w'))
     < length (Game.powerups (Game.game w)))%nat.
Proof. exact (shield_pickup_core now ev w pu). Qed.

Lemma shield_pickup_witness :
  exists w',
    Game.handle_collisions 105 quiet_env late_pickup_session = Some w' /\
    Player.has_shield (Game.player (Game.game w')) = true /\
    (length (Game.powerups (Game.game w')) < 1)%nat.
Proof.
  apply (shield_pickup 105 quiet_env late_pickup_session overlapping_powerup).
  - left. reflexivity.
  - reflexivity.
Defined.

(** X19.  The enemies are handled before the power-ups: a player without
    shield and invincibility that overlaps an enemy and a shield power-up in
    the same call loses the session, and holds the shield afterwards. *)
Theorem shield_picked_up_too_late (now : Q) (ev : Game.env) (w : Game.world)
        (pu : PowerUp.t) :
  ~ protected now (Game.player (Game.game w)) ->
  overlapping (Player.rect (Game.player (Game.game w)))
              (Game.enemies (Game.game w)) <> [] ->
  In pu (Game.powerups (Game.game w)) ->
  Rect.colliderect (Player.rect (Game.player (Game.game w)))
                   (PowerUp.rect pu) = true ->
  exists w',
    Game.handle_collisions now ev w = Some w' /\
    Game.state (Game.game w') = S_GAMEOVER /\
    Player.has_shield (Game.player (Game.game w')) = true.
Proof.
  intros Hp Ho Hin Hov.
  destruct (handle_collisions_unprotected now ev w Hp Ho) as (w' & Hw' & Hst).
  destruct (shield_pickup_core now ev w pu Hin Hov) as (w2 & Hw2 & Hsh & _).
  exists w'. split; [exact Hw'|]. split; [exact Hst|].
  congruence.
Qed.

Lemma shield_picked_up_too_late_witness :
  exists w',
    Game.handle_collisions 105 quiet_env late_pickup_session = Some w' /\
    Game.state (Game.game w') = S_GAMEOVER /\
    Player.has_shield (Game.player (Game.game w')) = true.
Proof.
  apply (shield_picked_up_too_late 105 quiet_env late_pickup_session
                                   overlapping_powerup).
  - intros [H | H]; discriminate.
  - discriminate.
  - left. reflexivity.
  - reflexivity.
Defined.

(** ** The event handlers and the main loop *)

Lemma reset_well_formed (now itv : Q) (w : Game.world) :
  well_formed (Game.with_game
                 (fun g => Game.reset now itv (Game.set_state S_PLAY g)) w).
Proof.
  unfold well_formed, in_field, above_bottom, distinct. cbn.
  repeat split; try constructor; try discriminate.
Qed.

Lemma handle_event_well_formed (i : Event.input) (w w' : Game.world) :
  well_formed w -> Game.handle_event i w = Some w' -> well_formed w'.
Proof.
  intros Hw H. unfold Game.handle_event in H.
  destruct (Event.event i) as [|k|]; [discriminate| |injection H as <-; exact Hw].
  destruct (Game.state (Game.game w)); destruct k;
    try discriminate;
    injection H as <-;
    try exact Hw;
    try apply reset_well_formed;
    try (destruct Hw as (H1 & H2 & H3 & H4); repeat split; assumption).
  destruct Hw as (H1 & H2 & H3 & H4).
  unfold well_formed, in_field, above_bottom, distinct in *.
  cbn [Game.with_game Game.game Game.player Game.set_player Game.enemies
       Game.powerups Game.next_oid].
  unfold Player.try_dash. destruct (Qgeb _ _); cbn; tauto.
Qed.

Lemma handle_events_well_formed (evs : list Event.input) :
  forall w w',
    well_formed w -> Game.handle_events evs w = Some w' -> well_formed w'.
Proof.
  induction evs as [|i evs IH]; intros w w' Hw H; cbn in H.
  - injection H as <-. exact Hw.
  - destruct (Game.handle_event i w) as [w1|] eqn:H1; [|discriminate].
    exact (IH _ _ (handle_event_well_formed _ _ _ Hw H1) H).
Qed.

Lemma update_well_formed (dt now : Q) (keys : Keys) (ev : Game.env)
      (w : Game.world) :
  well_formed w ->
  exists w', Game.update dt now keys ev w = Some w' /\ well_formed w'.
Proof.
  intros (Hsz & Hin & Hab & Hd).
  destruct (Game.state (Game.game w)) eqn:Hst;
    try (exists w; unfold Game.update; rewrite Hst; cbn;
         split; [reflexivity | exact (conj Hsz (conj Hin (conj Hab Hd)))]).
  assert (Hw : Player.size (Game.player (Game.game w)) <= WIDTH)
    by (rewrite Hsz; discriminate).
  assert (Hh : Player.size (Game.player (Game.game w)) <= HEIGHT)
    by (rewrite Hsz; discriminate).
  destruct (update_keeps_player_in_field_core dt now keys ev w Hst Hw Hh)
    as (w' & Hu & Hin' & Hsz').
  destruct (update_drops_fallen_entities_core dt now keys ev w Hst)
    as (w2 & Hu2 & Hab').
  destruct (update_leaves_no_overlap_core dt now keys ev w Hst Hd)
    as (w3 & Hu3 & Hd' & _).
  assert (w2 = w') by congruence. assert (w3 = w') by congruence. subst.
  exists w'. split; [exact Hu|].
  split; [congruence|]. exact (conj Hin' (conj Hab' Hd')).
Qed.

Lemma run_frame_well_formed (f : Game.frame) (w : Game.world) :
  well_formed w ->
  match Game.run_frame f w with
  | Game.Running w' => well_formed w'
  | Game.Exited => True
  | Game.Raised => False
  end.
Proof.
  intros Hw. unfold Game.run_frame.
  destruct (Game.handle_events (Game.f_events f) w) as [w1|] eqn:H1; [|exact I].
  pose proof (handle_events_well_formed _ _ _ Hw H1) as Hw1.
  destruct (State_eqb (Game.state (Game.game w1)) S_PLAY); [|exact Hw1].
  destruct (update_well_formed (inject_Z (Game.f_ms f) / 1000) (Game.f_now f)
              (Game.f_keys f) (Game.f_env f) w1 Hw1) as (w' & Hu & Hw').
  rewrite Hu. exact Hw'.
Qed.

Lemma run_well_formed (fs : list Game.frame) :
  forall w,
    well_formed w ->
    match Game.run fs w with
    | Game.Running w' => well_formed w'
    | Game.Exited => True
    | Game.Raised => False
    end.
Proof.
  induction fs as [|f fs IH]; intros w Hw; cbn [Game.run].
  - exact Hw.
  - pose proof (run_frame_well_formed f w Hw) as Hf.
    destruct (Game.run_frame f w) as [w1| |]; [apply IH; exact Hf|exact I|exact Hf].
Qed.

Lemma init_well_formed (now itv : Q) (file : option Z) :
  well_formed (Game.init now itv file).
Proof.
  unfold well_formed, in_field, above_bottom, distinct. cbn.
  repeat split; try constructor; try discriminate.
Qed.

(** X20.  From program start, whatever the frames bring (events, keys,
    clock readings, random draws, write failures), the main loop never
    stops on the [ValueError] of [list.remove], and as long as it runs the
    player has its size and lies inside the field, no live entity is below
    the bottom edge and the live entities are distinct objects. *)
Theorem run_stays_well_formed (fs : list Game.frame) (now itv : Q)
        (file : option Z) :
  Game.run fs (Game.init now itv file) <> Game.Raised /\
  forall w,
    Game.run fs (Game.init now itv file) = Game.Running w ->
    well_formed w.
Proof.
  pose proof (run_well_formed fs _ (init_well_formed now itv file)) as H.
  destruct (Game.run fs (Game.init now itv file)) as [w'| |].
  - split; [discriminate|]. intros w Hw. injection Hw as <-. exact H.
  - split; [discriminate|]. intros w Hw. discriminate.
  - contradiction.
Qed.

Lemma run_stays_well_formed_witness :
  exists w,
    Game.run [Game.mkFrame
                16 [Event.mkInput (Event.KEYDOWN Event.K_RETURN) 100 8]
                100 keys_right quiet_env;
              frame_nothing]
             (Game.init 99 7 None) = Game.Running w /\
    well_formed w.
Proof.
  assert (E : exists w,
             Game.run [Game.mkFrame
                         16 [Event.mkInput (Event.KEYDOWN Event.K_RETURN) 100 8]
                         100 keys_right quiet_env;
                       frame_nothing]
                      (Game.init 99 7 None) = Game.Running w).
  { eexists. vm_compute. reflexivity. }
  destruct E as [w E]. exists w. split; [exact E|].
  exact (proj2 (run_stays_well_formed _ 99 7 None) w E).
Defined.

Lemma handle_event_ignored (i : Event.input) (w : Game.world) :
  ignored_in (Game.state (Game.game w)) (Event.event i) ->
  Game.handle_event i w = Some w.
Proof.
  unfold Game.handle_event, ignored_in.
  destruct (Event.event i) as [|k|]; [contradiction| |reflexivity].
  destruct (Game.state (Game.game w)); destruct k; intros H;
    try reflexivity; exfalso; intuition congruence.
Qed.

Lemma handle_events_ignored (evs : list Event.input) (w : Game.world) :
  Forall (fun i => ignored_in (Game.state (Game.game w)) (Event.event i)) evs ->
  Game.handle_events evs w = Some w.
Proof.
  induction 1 as [|i evs Hi _ IH]; cbn; [reflexivity|].
  rewrite (handle_event_ignored i w Hi). exact IH.
Qed.

(** X21.  Outside the playing state a frame whose events the state ignores
    changes nothing at all: while paused or after game-over nothing moves,
    no timer is touched and the dash key has no effect. *)
Theorem idle_frame_changes_nothing (f : Game.frame) (w : Game.world) :
  Game.state (Game.game w) <> S_PLAY ->
  Forall (fun i => ignored_in (Game.state (Game.game w)) (Event.event i))
         (Game.f_events f) ->
  Game.run_frame f w = Game.Running w.
Proof.
  intros Hst Hev. unfold Game.run_frame.
  rewrite (handle_events_ignored _ _ Hev).
  destruct (Game.state (Game.game w)); try reflexivity. contradiction.
Qed.

Lemma idle_frame_changes_nothing_witness :
  Game.run_frame
    (Game.mkFrame 16 [Event.mkInput (Event.KEYDOWN Event.K_SPACE) 106 8]
                  106 keys_space quiet_env)
    (Game.with_game (Game.set_state S_PAUSE) crowded_session)
  = Game.Running (Game.with_game (Game.set_state S_PAUSE) crowded_session).
Proof.
  apply idle_frame_changes_nothing.
  - discriminate.
  - constructor; [|constructor]. cbn. repeat split; discriminate.
Defined.

Lemma pause_resume_round_trip_core (i1 i2 : Event.input) (w : Game.world) :
  Game.state (Game.game w) = S_PLAY ->
  pause_key i1 ->
  pause_key i2 ->
  Game.handle_events [i1] w
  = Some (Game.with_game (Game.set_state S_PAUSE) w) /\
  Game.handle_events [i1; i2] w = Some w.
Proof.
  intros Hst H1 H2.
  assert (E1 : Game.handle_event i1 w
               = Some (Game.with_game (Game.set_state S_PAUSE) w)).
  { unfold Game.handle_event. rewrite Hst.
    destruct H1 as [-> | ->]; reflexivity. }
  assert (E2 : Game.handle_event i2 (Game.with_game (Game.set_state S_PAUSE) w)
               = Some w).
  { unfold Game.handle_event. cbn [Game.with_game Game.game Game.set_state
                                    Game.state].
    destruct w as [g file n]. destruct g. cbn in Hst. subst.
    destruct H2 as [-> | ->]; reflexivity. }
  cbn [Game.handle_events]. rewrite E1. split; [reflexivity|].
  rewrite E2. reflexivity.
Qed.

(** X22.  Pause and resume are inverse: pressing P or Escape twice while
    playing gives back exactly the world there was. *)
Theorem pause_resume_round_trip (i1 i2 : Event.input) (w : Game.world) :
  Game.state (Game.game w) = S_PLAY ->
  pause_key i1 ->
  pause_key i2 ->
  Game.handle_events [i1] w
  = Some (Game.with_game (Game.set_state S_PAUSE) w) /\
  Game.handle_events [i1; i2] w = Some w.
Proof. exact (pause_resume_round_trip_core i1 i2 w). Qed.

Lemma pause_resume_round_trip_witness :
  Game.handle_events
    [Event.mkInput (Event.KEYDOWN Event.K_p) 105 8;
     Event.mkInput (Event.KEYDOWN Event.K_ESCAPE) 200 8] crowded_session
  = Some crowded_session.
Proof.
  apply (pause_resume_round_trip
           (Event.mkInput (Event.KEYDOWN Event.K_p) 105 8)
           (Event.mkInput (Event.KEYDOWN Event.K_ESCAPE) 200 8)
           crowded_session).
  - reflexivity.
  - left. reflexivity.
  - right. reflexivity.
Defined.

Lemma run_app (fs1 fs2 : list Game.frame) (w w1 : Game.world) :
  Game.run fs1 w = Game.Running w1 ->
  Game.run (fs1 ++ fs2) w = Game.run fs2 w1.
Proof.
  revert w. induction fs1 as [|f fs1 IH]; intros w H; cbn in *.
  - injection H as <-. reflexivity.
  - destruct (Game.run_frame f w) as [w2| |]; try discriminate.
    apply IH. exact H.
Qed.

Lemma run_idle (fs : list Game.frame) (w : Game.world) :
  Game.state (Game.game w) <> S_PLAY ->
  Forall (fun f => Game.f_events f = []) fs ->
  Game.run fs w = Game.Running w.
Proof.
  intros Hst H. induction H as [|f fs Hf _ IH]; cbn; [reflexivity|].
  unfold Game.run_frame. rewrite Hf. cbn [Game.handle_events].
  destruct (Game.state (Game.game w)) eqn:E; cbn; try exact IH.
  contradiction.
Qed.

(** X23.  Pausing does not stop the survival clock.  When the game is
    paused, left paused for any number of frames and resumed, the tick of
    the resuming frame scores the whole time since the session started,
    pause included: [elapsed] is the wall-clock reading minus
    [start_time]. *)
Theorem paused_time_counts (f1 f2 : Game.frame) (idle : list Game.frame)
        (i1 i2 : Event.input) (w : Game.world) :
  Game.state (Game.game w) = S_PLAY ->
  Game.f_events f1 = [i1] -> pause_key i1 ->
  Forall (fun f => Game.f_events f = []) idle ->
  Game.f_events f2 = [i2] -> pause_key i2 ->
  exists w',
    Game.run (f1 :: idle ++ [f2]) w = Game.Running w' /\
    Game.score (Game.game w') =
    ((Game.f_now f2 - Game.start_time (Game.game w)) * 10 +
     inject_Z (Z.max 0 (Z.of_nat (length (Game.enemies (Game.game w'))) - 4)))%Q.
Proof.
  intros Hst Hf1 Hp1 Hidle Hf2 Hp2.
  destruct (pause_resume_round_trip_core i1 i2 w Hst Hp1 Hp2) as [E1 E12].
  set (wp := Game.with_game (Game.set_state S_PAUSE) w) in *.
  assert (R1 : Game.run_frame f1 w = Game.Running wp).
  { unfold Game.run_frame. rewrite Hf1, E1. reflexivity. }
  assert (Hpause : Game.state (Game.game wp) <> S_PLAY) by discriminate.
  cbn [Game.run]. rewrite R1.
  rewrite (run_app idle [f2] wp wp (run_idle idle wp Hpause Hidle)).
  cbn [Game.run]. unfold Game.run_frame. rewrite Hf2.
  assert (E2 : Game.handle_events [i2] wp = Some w).
  { assert (H1e : Game.handle_event i1 w = Some wp).
    { unfold Game.handle_event. rewrite Hst.
      destruct Hp1 as [-> | ->]; reflexivity. }
    cbn [Game.handle_events] in E12 |- *. rewrite H1e in E12.
    destruct (Game.handle_event i2 wp); [exact E12 | discriminate]. }
  rewrite E2, Hst. cbn [State_eqb].
  destruct (update_runs (inject_Z (Game.f_ms f2) / 1000) (Game.f_now f2)
              (Game.f_keys f2) (Game.f_env f2) w Hst) as (w' & Hu & _ & Hsc).
  rewrite Hu. exists w'. split; [reflexivity | exact Hsc].
Qed.

Lemma paused_time_counts_witness :
  exists w',
    Game.run (frame_pause :: [frame_nothing; frame_nothing] ++ [frame_resume])
             crowded_session = Game.Running w' /\
    Game.score (Game.game w') =
    ((200 - 100) * 10 +
     inject_Z (Z.max 0 (Z.of_nat (length (Game.enemies (Game.game w'))) - 4)))%Q.
Proof.
  apply (paused_time_counts
           frame_pause frame_resume [frame_nothing; frame_nothing]
           (Event.mkInput (Event.KEYDOWN Event.K_p) 105 8)
           (Event.mkInput (Event.KEYDOWN Event.K_p) 200 8)
           crowded_session).
  - reflexivity.
  - reflexivity.
  - left. reflexivity.
  - repeat constructor.
  - reflexivity.
  - left. reflexivity.
Defined.

(** ** The best score and the session state along a run *)

Lemma handle_event_best (i : Event.input) (w w' : Game.world) :
  Game.handle_event i w = Some w' ->
  Game.high_score (Game.game w') = Game.high_score (Game.game w) /\
  Game.hs_file w' = Game.hs_file w /\
  (Game.state (Game.game w) <> S_MENU -> Game.state (Game.game w') <> S_MENU).
Proof.
  unfold Game.handle_event. intros H.
  destruct (Event.event i) as [|k|];
    [discriminate| |injection H as <-; auto].
  destruct (Game.state (Game.game w)) eqn:Hst; destruct k;
    try discriminate; injection H as <-; cbn;
    repeat split; try discriminate; try congruence.
Qed.

Lemma handle_events_best (evs : list Event.input) :
  forall w w',
    Game.handle_events evs w = Some w' ->
    Game.high_score (Game.game w') = Game.high_score (Game.game w) /\
    Game.hs_file w' = Game.hs_file w /\
    (Game.state (Game.game w) <> S_MENU -> Game.state (Game.game w') <> S_MENU).
Proof.
  induction evs as [|i evs IH]; intros w w' H; cbn in H.
  - injection H as <-. auto.
  - destruct (Game.handle_event i w) as [w1|] eqn:H1; [|discriminate].
    destruct (handle_event_best _ _ _ H1) as (A1 & B1 & C1).
    destruct (IH _ _ H) as (A2 & B2 & C2).
    repeat split; [congruence | congruence | auto].
Qed.

Lemma run_frame_best (f : Game.frame) (w w' : Game.world) :
  Game.run_frame f w = Game.Running w' ->
  Game.high_score (Game.game w) <= Game.high_score (Game.game w') /\
  (saved w -> Game.io_ok (Game.f_env f) = true -> saved w') /\
  (Game.state (Game.game w) <> S_MENU -> Game.state (Game.game w') <> S_MENU).
Proof.
  unfold Game.run_frame. intros H.
  destruct (Game.handle_events (Game.f_events f) w) as [w1|] eqn:H1;
    [|discriminate].
  destruct (handle_events_best _ _ _ H1) as (A1 & B1 & C1).
  assert (S1 : saved w -> saved w1).
  { unfold saved. rewrite A1, B1. auto. }
  destruct (State_eqb (Game.state (Game.game w1)) S_PLAY) eqn:Hp.
  - destruct (update_keeps_best_score_core
                (inject_Z (Game.f_ms f) / 1000) (Game.f_now f) (Game.f_keys f)
                (Game.f_env f) w1) as (w2 & Hu & Hh & Hs).
    destruct (update_never_raises_core
                (inject_Z (Game.f_ms f) / 1000) (Game.f_now f) (Game.f_keys f)
                (Game.f_env f) w1) as (w3 & Hu3 & Hst & _).
    rewrite Hu in H. injection H as <-.
    assert (w3 = w2) by congruence. subst w3.
    split; [lia|]. split; [auto|].
    intros Hm. specialize (C1 Hm).
    destruct Hst as [Hst | [_ Hst]]; rewrite Hst; [exact C1 | discriminate].
  - injection H as <-. split; [lia|]. split; auto.
Qed.

(** X24.  Along a run the best score never goes down, restarts included;
    and when the file held the best score at the start and no write fails,
    it holds the best score at the end. *)
Theorem run_keeps_best_score (fs : list Game.frame) (w w' : Game.world) :
  Game.run fs w = Game.Running w' ->
  Game.high_score (Game.game w) <= Game.high_score (Game.game w') /\
  (saved w ->
   Forall (fun f => Game.io_ok (Game.f_env f) = true) fs ->
   saved w').
Proof.
  revert w. induction fs as [|f fs IH]; intros w H; cbn [Game.run] in H.
  - injection H as <-. split; [lia | auto].
  - destruct (Game.run_frame f w) as [w1| |] eqn:Hf; try discriminate.
    destruct (run_frame_best _ _ _ Hf) as (A & B & _).
    destruct (IH _ H) as (A' & B').
    split; [lia|]. intros Hs Hio. inversion Hio; subst. auto.
Qed.

(** X25.  The menu is only the first screen: once the session state is not
    the menu, no frame brings it back. *)
Theorem menu_is_left_for_good (fs : list Game.frame) (w w' : Game.world) :
  Game.state (Game.game w) <> S_MENU ->
  Game.run fs w = Game.Running w' ->
  Game.state (Game.game w') <> S_MENU.
Proof.
  revert w. induction fs as [|f fs IH]; intros w Hm H; cbn [Game.run] in H.
  - injection H as <-. exact Hm.
  - destruct (Game.run_frame f w) as [w1| |] eqn:Hf; try discriminate.
    destruct (run_frame_best _ _ _ Hf) as (_ & _ & C).
    exact (IH _ (C Hm) H).
Qed.

Lemma run_keeps_best_score_witness :
  exists w',
    Game.run [frame_nothing] doomed_session = Game.Running w' /\
    50 <= Game.high_score (Game.game w') /\
    saved w'.
Proof.
  assert (E : exists w', Game.run [frame_nothing] doomed_session
                         = Game.Running w').
  { eexists. vm_compute. reflexivity. }
  destruct E as [w' E]. exists w'. split; [exact E|].
  destruct (run_keeps_best_score _ _ _ E) as [H1 H2].
  split; [exact H1|]. apply H2.
  - reflexivity.
  - repeat constructor.
Defined.

Lemma menu_is_left_for_good_witness :
  exists w',
    Game.run [frame_pause; frame_nothing] crowded_session = Game.Running w' /\
    Game.state (Game.game w') <> S_MENU.
Proof.
  assert (E : exists w', Game.run [frame_pause; frame_nothing] crowded_session
                         = Game.Running w').
  { eexists. vm_compute. reflexivity. }
  destruct E as [w' E]. exists w'. split; [exact E|].
  apply (menu_is_left_for_good [frame_pause; frame_nothing]
                               crowded_session w');
    [discriminate | exact E].
Defined.

(** ** The dash line of the HUD *)

(** X26.  The HUD shows "Dash Ready" exactly when [try_dash] would succeed
    at that moment; otherwise it shows the cooldown that is left,
    [dash_cd_until - now]. *)
Theorem hud_agrees_with_try_dash (now : Q) (p : Player.t) :
  (hud_dash_info now p = Dash_Ready <-> fst (Player.try_dash now p) = true) /\
  ((now < Player.dash_cd_until p)%Q ->
   hud_dash_info now p = Dash_wait (Player.dash_cd_until p - now)).
Proof.
  unfold hud_dash_info, Player.try_dash, py_max.
  destruct (Qgeb now (Player.dash_cd_until p)) eqn:E.
  - apply Qgeb_true_iff in E. cbn [fst]. split.
    + assert (H : Qle_bool
                    (if Qltb 0 (Player.dash_cd_until p - now)
                     then Player.dash_cd_until p - now else 0) 0 = true).
      { apply Qle_bool_iff. Qcases; lra. }
      rewrite H. tauto.
    + intros Hlt. lra.
  - apply Qgeb_false_iff in E. cbn [fst].
    assert (H0 : Qltb 0 (Player.dash_cd_until p - now) = true).
    { apply Qltb_true_iff. lra. }
    rewrite H0.
    assert (H : Qle_bool (Player.dash_cd_until p - now) 0 = false).
    { destruct (Qle_bool _ _) eqn:E2; [|reflexivity].
      apply Qle_bool_iff in E2. lra. }
    rewrite H. split; [split; intros HH; discriminate HH | reflexivity].
Qed.

Lemma hud_agrees_with_try_dash_witness :
  hud_dash_info (1055 # 10) dashed_player
  = Dash_wait (Player.dash_cd_until dashed_player - (1055 # 10)).
Proof.
  apply (hud_agrees_with_try_dash (1055 # 10) dashed_player).
  reflexivity.
Defined.

(** ** The background gradient *)

Lemma py_int_inject (k : Z) : py_int (inject_Z k) = k.
Proof. unfold py_int, inject_Z. cbn. apply Z.quot_1_r. Qed.

Lemma channel_at_0 (a b : Z) (t : Q) :
  (t == 0)%Q -> py_int (inject_Z a * (1 - t) + inject_Z b * t) = a.
Proof.
  intros Ht. rewrite <- (py_int_inject a) at 2.
  apply py_int_Qeq. rewrite Ht. ring.
Qed.

Lemma channel_at_1 (a b : Z) (t : Q) :
  (t == 1)%Q -> py_int (inject_Z a * (1 - t) + inject_Z b * t) = b.
Proof.
  intros Ht. rewrite <- (py_int_inject b) at 2.
  apply py_int_Qeq. rewrite Ht. ring.
Qed.

(** X27.  On a surface at least two lines high the first line of the
    gradient has exactly the top colour and the last line exactly the bottom
    colour. *)
Theorem gradient_endpoints (h : Z) (top_color bottom_color : color) :
  2 <= h ->
  gradient_color h 0 top_color bottom_color = Some top_color /\
  gradient_color h (h - 1) top_color bottom_color = Some bottom_color.
Proof.
  intros Hh.
  destruct top_color as [[tr tg] tb]. destruct bottom_color as [[br bg] bb].
  unfold gradient_color.
  assert (E : (h - 1 =? 0) = false) by (apply Z.eqb_neq; lia).
  rewrite E. split.
  - assert (H0 : (inject_Z 0 / inject_Z (h - 1) == 0)%Q)
      by (unfold Qdiv; apply Qmult_0_l).
    rewrite !(channel_at_0 _ _ _ H0). reflexivity.
  - assert (H1 : (inject_Z (h - 1) / inject_Z (h - 1) == 1)%Q).
    { apply Qmult_inv_r.
      intros H. apply (proj1 (inject_Z_injective (h - 1) 0)) in H. lia. }
    rewrite !(channel_at_1 _ _ _ H1). reflexivity.
Qed.

Lemma gradient_endpoints_witness :
  gradient_color HEIGHT 0 C_BG_TOP C_BG_BOTTOM = Some C_BG_TOP /\
  gradient_color HEIGHT 539 C_BG_TOP C_BG_BOTTOM = Some C_BG_BOTTOM.
Proof.
  apply (gradient_endpoints HEIGHT C_BG_TOP C_BG_BOTTOM). discriminate.
Defined.

Lemma gradient_lines_length (h : Z) (top_color bottom_color : color) :
  h - 1 <> 0 ->
  forall ys,
    exists cs,
      gradient_lines h ys top_color bottom_color = Some cs /\
      length cs = length ys.
Proof.
  intros Hh. induction ys as [|y ys IH]; cbn [gradient_lines].
  - exists []. split; reflexivity.
  - destruct IH as (cs & Hcs & Hlen). rewrite Hcs.
    unfold gradient_color. apply Z.eqb_neq in Hh. rewrite Hh.
    destruct top_color as [[tr tg] tb]. destruct bottom_color as [[br bg] bb].
    eexists. split; [reflexivity|]. cbn. rewrite Hlen. reflexivity.
Qed.

(** X28.  [draw_vgradient] divides by [h - 1]: on a surface one line high
    it raises [ZeroDivisionError]; on an empty surface it draws nothing; on
    a surface of two or more lines it draws one line per row. *)
Theorem draw_vgradient_height (h : Z) (top_color bottom_color : color) :
  draw_vgradient 1 top_color bottom_color = None /\
  (h <= 0 -> draw_vgradient h top_color bottom_color = Some []) /\
  (2 <= h ->
   exists cs,
     draw_vgradient h top_color bottom_color = Some cs /\
     length cs = Z.to_nat h).
Proof.
  split; [reflexivity|]. split.
  - intros Hh. unfold draw_vgradient, range.
    replace (Z.to_nat h) with 0%nat by lia. reflexivity.
  - intros Hh. unfold draw_vgradient.
    destruct (gradient_lines_length h top_color bottom_color ltac:(lia)
                                    (range h)) as (cs & Hcs & Hlen).
    exists cs. split; [exact Hcs|].
    rewrite Hlen. unfold range. rewrite length_map, length_seq. reflexivity.
Qed.

Lemma draw_vgradient_height_witness :
  draw_vgradient 0 C_BG_TOP C_BG_BOTTOM = Some [] /\
  exists cs,
    draw_vgradient HEIGHT C_BG_TOP C_BG_BOTTOM = Some cs /\
    length cs = 540%nat.
Proof.
  destruct (draw_vgradient_height 0 C_BG_TOP C_BG_BOTTOM) as (_ & H0 & _).
  destruct (draw_vgradient_height HEIGHT C_BG_TOP C_BG_BOTTOM) as (_ & _ & H).
  split; [apply H0; lia|].
  destruct H as (cs & Hcs & Hlen); [discriminate|].
  exists cs. split; [exact Hcs | exact Hlen].
Defined.

(** ** When a spawn is due *)

Lemma before_collisions_spawns (dt now : Q) (keys : Keys) (ev : Game.env)
      (w : Game.world) :
  (SPAWN_BASE_INTERVAL <= now - Game.last_spawn (Game.game w))%Q ->
  let w4 := before_collisions dt now keys ev w in
  Game.last_spawn (Game.game w4) = now /\
  (Game.next_oid w < Game.next_oid w4)%nat.
Proof.
  intros Hdue. unfold before_collisions.
  pose proof (difficulty_range_core
                (now - Game.start_time
                         (Game.game (Game.update_player dt now keys w))))
    as (Hsi & _).
  destruct (Game.difficulty _) as [si es]. cbn [fst] in Hsi.
  assert (Hl : Game.last_spawn (Game.game (Game.update_player dt now keys w))
               = Game.last_spawn (Game.game w) /\
               Game.next_oid (Game.update_player dt now keys w)
               = Game.next_oid w).
  { unfold Game.update_player.
    destruct (K_SPACE keys || K_LCTRL keys); split; reflexivity. }
  destruct Hl as [Hl Hn].
  set (w1 := Game.update_player dt now keys w) in *.
  assert (E : Qgeb (now - Game.last_spawn (Game.game w1)) si = true).
  { apply Qgeb_true_iff. rewrite Hl. lra. }
  clearbody w1.
  assert (H2 : Game.last_spawn
                 (Game.game (Game.update_spawn
                               now (now - Game.start_time (Game.game w1))
                               si es ev w1)) = now /\
               (Game.next_oid w1
                < Game.next_oid (Game.update_spawn
                                   now (now - Game.start_time (Game.game w1))
                                   si es ev w1))%nat).
  { unfold Game.update_spawn. rewrite E.
    destruct (Qltb _ _); cbn; split; reflexivity || lia. }
  destruct H2 as [H2l H2n]. clear E.
  set (w2 := Game.update_spawn now (now - Game.start_time (Game.game w1))
                               si es ev w1) in *.
  clearbody w2.
  unfold Game.update_entities, Game.update_powerup_timer.
  destruct (Qgeb _ _);
    cbn [Game.with_game Game.game Game.next_oid Game.last_spawn
         Game.set_enemies Game.set_powerups Game.set_next_powerup_t
         Game.spawn_powerup];
    split; try exact H2l; lia.
Qed.


